(** * c-hashtable: a string-keyed chained hash table (hashtable.c)

    A shallow embedding of [hashtable.c] and the properties of its public
    functions.  Each C function is a Rocq function of the same name; the
    state the C code mutates (the [hashtable_t] instance and the allocator's
    heap) is passed in and returned.

    The functions start with [assert (NULL != hashtable)] and
    [assert (NULL != key)]: the instance and the key are values here, never
    NULL (only [hashtable_release], which tests for NULL itself, takes an
    optional instance).  One thread is modelled: the calls on the
    semaphore are recorded, what they exclude between threads is not. *)

From Stdlib Require Import ZArith String Ascii Lia Bool.
From stdpp Require Import base option list gmap strings.

Local Open Scope Z_scope.

(** ** The host: widths the C types have on the machine the code runs on *)

(** [unsigned long] and [size_t] wrap at a power of two that the platform
    chooses (of 32 bits at least), and plain [char] is signed on some
    platforms and unsigned on others; the code is read against an
    arbitrary choice. *)
Class Host := {
  ulong_bits : N;      (**r width of [unsigned long] *)
  size_bits : N;       (**r width of [size_t] *)
  ptr_bytes : positive; (**r size of a pointer to char, in bytes *)
  char_signed : bool   (**r whether plain [char] is a signed type *)
}.

(** The usual 64-bit Linux host (LP64, signed [char]). *)
Definition lp64 : Host :=
  {| ulong_bits := 64; size_bits := 64; ptr_bytes := 8; char_signed := true |}.

(** A 32-bit host with unsigned [char] (ILP32, e.g. 32-bit ARM). *)
Definition ilp32 : Host :=
  {| ulong_bits := 32; size_bits := 32; ptr_bytes := 4; char_signed := false |}.

Section Words.
Context `{Host}.

Definition ULONG_MOD : Z := 2 ^ Z.of_N ulong_bits.
Definition SIZE_MOD : Z := 2 ^ Z.of_N size_bits.

(** Conversion of an integer to [unsigned long] / to [size_t]. *)
Definition to_ulong (z : Z) : Z := z mod ULONG_MOD.
Definition to_size (z : Z) : Z := z mod SIZE_MOD.
End Words.

(** ** C strings *)

(** A [char *] argument is the sequence of chars found at the address; the
    C string it denotes stops before the first NUL (a Rocq string that
    holds no NUL denotes itself). *)
Definition NUL : ascii := "000"%char.

(** The byte as [unsigned char]. *)
Definition uchar (c : ascii) : Z := Z.of_N (N_of_ascii c).

(** The value [*key] has as an [int]: sign-extended where [char] is signed. *)
Definition char_to_int `{Host} (c : ascii) : Z :=
  if char_signed && (128 <=? uchar c) then uchar c - 256 else uchar c.

(** The chars before the terminating NUL. *)
Fixpoint c_str (s : string) : string :=
  match s with
  | EmptyString => EmptyString
  | String c s' => if Ascii.eqb c NUL then EmptyString else String c (c_str s')
  end.

(** [strdup]: a fresh copy of the C string. *)
Definition strdup (s : string) : string := c_str s.

(** The char at the head of what remains of a string; past the end of the
    Rocq string stands the terminator. *)
Definition head_char (s : string) : ascii :=
  match s with EmptyString => NUL | String c _ => c end.

(** [strcmp]: the difference of the first pair of chars (as [unsigned
    char]) that differ, 0 when both strings end together. *)
Fixpoint strcmp (s1 s2 : string) : Z :=
  match s1 with
  | EmptyString => 0 - uchar (head_char s2)
  | String c1 s1' =>
      let c2 := head_char s2 in
      if negb (uchar c1 =? uchar c2) then uchar c1 - uchar c2
      else if uchar c1 =? 0 then 0
      else strcmp s1' (match s2 with EmptyString => EmptyString | String _ s2' => s2' end)
  end.

(** ** hashtable_compute_hash *)

Section Hash.
Context `{Host}.

(** The body of [while (0 != (c = *key++))]:
    [hash = ((hash << 5) + hash) + c] on [unsigned long]; the shift and
    each sum wrap, and the [int] [c] is converted to [unsigned long]. *)
Fixpoint djb2_loop (hash : Z) (key : string) : Z :=
  match key with
  | EmptyString => hash
  | String ch key' =>
      let c := char_to_int ch in
      if c =? 0 then hash
      else
        djb2_loop
          (to_ulong (to_ulong (to_ulong (Z.shiftl hash 5) + hash) + to_ulong c))
          key'
  end.

(** [hash % hashtable->size], for a table whose [size] field is [size].
    (A [size] of 0 is undefined in C; [hashtable_create] is to be called
    with 1 at least.) *)
Definition compute_hash (size : Z) (key : string) : Z :=
  djb2_loop 5381 key mod size.

(** The hash as the specification words it: from 5381, each char [c]
    turns [hash] into [hash * 33 + c], reduced to the width of
    [unsigned long]. *)
Definition djb2_spec (key : string) : Z :=
  fold_left (fun hash c => (hash * 33 + c) mod ULONG_MOD)
            (map char_to_int (list_ascii_of_string (c_str key))) 5381.
End Hash.

(** ** The heap and the allocator *)

Definition NULL : Z := 0.

(** What [malloc] hands out to code outside the table, by address: a value
    payload ([malloc (size)], bytes that are indeterminate until written)
    or the array of key references [hashtable_get_keys] fills (a slot is
    [None] until it is written). *)
Inductive block : Type :=
| Bytes (bs : list (option Z))
| KeyArray (ks : list (option string)).

(** The objects only the table ever points to have no address in the model;
    the allocator keeps their number, per kind. *)
Inductive kind : Type :=
| Instance      (**r a [hashtable_t] *)
| BucketArray   (**r the array [hashtable->table] *)
| Element       (**r a [hashtable_element_t] *)
| KeyCopy.      (**r the [strdup] of a key *)

#[global] Instance kind_eq_dec : EqDecision kind.
Proof. solve_decision. Defined.

(** What the allocator does with one request: it has no memory for it, or
    it grants it, at the address it would like to hand out for an
    addressable block. *)
Inductive fate : Type :=
| Denied
| Granted (addr : Z).

Record memory := {
  blocks : gmap Z block;   (**r live addressable blocks *)
  instances : Z;           (**r live objects of each [kind] *)
  bucket_arrays : Z;
  elements : Z;
  key_copies : Z;
  fates : list fate        (**r the fate of the coming allocation requests,
                               oldest first; none listed, the request is granted *)
}.

Definition set_blocks (m : memory) (b : gmap Z block) : memory :=
  {| blocks := b; instances := instances m; bucket_arrays := bucket_arrays m;
     elements := elements m; key_copies := key_copies m; fates := fates m |}.

Definition set_fates (m : memory) (fs : list fate) : memory :=
  {| blocks := blocks m; instances := instances m; bucket_arrays := bucket_arrays m;
     elements := elements m; key_copies := key_copies m; fates := fs |}.

(** Number of live objects of a kind. *)
Definition live (k : kind) (m : memory) : Z :=
  match k with
  | Instance => instances m
  | BucketArray => bucket_arrays m
  | Element => elements m
  | KeyCopy => key_copies m
  end.

Definition add_live (k : kind) (d : Z) (m : memory) : memory :=
  {| blocks := blocks m;
     instances := match k with Instance => instances m + d | _ => instances m end;
     bucket_arrays := match k with BucketArray => bucket_arrays m + d | _ => bucket_arrays m end;
     elements := match k with Element => elements m + d | _ => elements m end;
     key_copies := match k with KeyCopy => key_copies m + d | _ => key_copies m end;
     fates := fates m |}.

(** The allocator decides one request: [None] when it has no memory, the
    address it would like to hand out when it grants the request. *)
Definition request (m : memory) : option Z * memory :=
  match fates m with
  | [] => (Some NULL, m)
  | Denied :: rest => (None, set_fates m rest)
  | Granted addr :: rest => (Some addr, set_fates m rest)
  end.

(** [malloc] / [strdup] of an object private to the table: whether it is
    granted. *)
Definition malloc_object (k : kind) (m : memory) : bool * memory :=
  let (granted, m) := request m in
  match granted with
  | Some _ => (true, add_live k 1 m)
  | None => (false, m)
  end.

Definition free_object (k : kind) (m : memory) : memory := add_live k (-1) m.

(** [malloc] of an addressable block: NULL, or an address that is neither
    NULL nor the address of a live block (the one the allocator would like
    when that one qualifies, another one otherwise). *)
Definition malloc_block (m : memory) (init : block) : Z * memory :=
  let (granted, m) := request m in
  match granted with
  | Some addr =>
      let taken : gset Z := {[NULL]} ∪ dom (blocks m) in
      let p := if decide (addr ∈ taken) then fresh taken else addr in
      (p, set_blocks m (<[p := init]> (blocks m)))
  | None => (NULL, m)
  end.

(** [malloc (size)]: [size] indeterminate bytes. *)
Definition malloc (m : memory) (size : Z) : Z * memory :=
  malloc_block m (Bytes (replicate (Z.to_nat size) None)).

(** [free (p)] of an addressable block.  (Freeing an address that is not
    live is undefined in C; the model leaves the heap as it is.) *)
Definition free (m : memory) (p : Z) : memory :=
  set_blocks m (delete p (blocks m)).

(** [memcpy (dst, src, n)] between two payload blocks.  (Reading past the
    end of [src], or copying from or to an address that is not a live
    payload, is undefined in C; the model copies the bytes that exist, or
    nothing.) *)
Definition memcpy (m : memory) (dst src n : Z) : memory :=
  match blocks m !! dst, blocks m !! src with
  | Some (Bytes d), Some (Bytes s) =>
      set_blocks m (<[dst := Bytes (take (Z.to_nat n) s ++ drop (Z.to_nat n) d)]> (blocks m))
  | _, _ => m
  end.

(** ** The semaphore *)

Inductive sem_op : Type := SemWait | SemPost | SemClose.

(** A [sem_t]: the value [sem_init] gave it and the calls made on it since,
    oldest first. *)
Record sem_t := { initial : Z; calls : list sem_op }.

Definition sem_init (value : Z) : sem_t := {| initial := value; calls := [] |}.

Definition sem_call (op : sem_op) (s : sem_t) : sem_t :=
  {| initial := initial s; calls := calls s ++ [op] |}.




(** ** The table *)

Module elt.
(** [hashtable_element_t]; the [next] link is the rest of the chain. *)
Record hashtable_element_t := {
  key : string;   (**r the element's own copy of the key *)
  e : Z           (**r the value, a pointer *)
}.
End elt.
Abbreviation hashtable_element_t := elt.hashtable_element_t.

Module ht.
Record hashtable_t := {
  table : list (list hashtable_element_t);   (**r the bucket heads, each with its chain *)
  size : Z;
  count : Z;
  alloc : bool;
  sem : sem_t
}.
End ht.
Abbreviation hashtable_t := ht.hashtable_t.

Definition set_e (c : hashtable_element_t) (p : Z) : hashtable_element_t :=
  {| elt.key := c.(elt.key); elt.e := p |}.

Definition set_table (h : hashtable_t) (t : list (list hashtable_element_t)) : hashtable_t :=
  {| ht.table := t; ht.size := h.(ht.size); ht.count := h.(ht.count);
     ht.alloc := h.(ht.alloc); ht.sem := h.(ht.sem) |}.

Definition set_count (h : hashtable_t) (n : Z) : hashtable_t :=
  {| ht.table := h.(ht.table); ht.size := h.(ht.size); ht.count := n;
     ht.alloc := h.(ht.alloc); ht.sem := h.(ht.sem) |}.

Definition set_sem (h : hashtable_t) (s : sem_t) : hashtable_t :=
  {| ht.table := h.(ht.table); ht.size := h.(ht.size); ht.count := h.(ht.count);
     ht.alloc := h.(ht.alloc); ht.sem := s |}.

(** [sem_wait (&hashtable->sem)] and [sem_post (&hashtable->sem)].  (A wait
    on a semaphore without a permit blocks the calling thread until another
    thread posts; the model of one thread records the call.) *)
Definition sem_wait (h : hashtable_t) : hashtable_t := set_sem h (sem_call SemWait h.(ht.sem)).
Definition sem_post (h : hashtable_t) : hashtable_t := set_sem h (sem_call SemPost h.(ht.sem)).

(** [hashtable->table[hash]], read and written.  (An index outside the
    array is undefined in C; the model reads an empty chain there and a
    write does nothing.) *)
Definition bucket (h : hashtable_t) (hash : Z) : list hashtable_element_t :=
  default [] (h.(ht.table) !! Z.to_nat hash).

Definition set_bucket (h : hashtable_t) (hash : Z) (chain : list hashtable_element_t) : hashtable_t :=
  set_table h (<[Z.to_nat hash := chain]> h.(ht.table)).

(** ** The functions of hashtable.c *)

Section Functions.
Context `{Host}.

(** [hashtable_compute_hash (hashtable, key)]. *)
Definition hashtable_compute_hash (hashtable : hashtable_t) (key : string) : Z :=
  compute_hash hashtable.(ht.size) key.

(** [hashtable_create (size, alloc)]: the instance, or [None] for NULL. *)
Definition hashtable_create (m : memory) (size : Z) (alloc : bool)
  : option hashtable_t * memory :=
  (* Create hashtable instance *)
  let (granted, m) := malloc_object Instance m in
  if negb granted then (None, m)
  else
    (* Create table *)
    let (granted, m) := malloc_object BucketArray m in
    if negb granted then (None, free_object Instance m)
    else
      (Some {| ht.table := replicate (Z.to_nat size) [];
               ht.size := size;
               ht.count := 0;
               ht.alloc := alloc;
               ht.sem := sem_init 1 |},
       m).

(** How the chain scan of [hashtable_add] ends. *)
Inductive add_scan_result : Type :=
| Updated (chain : list hashtable_element_t) (m : memory)       (**r [return 0] from the loop *)
| UpdateFailed (chain : list hashtable_element_t) (m : memory)  (**r [return -1] from the loop *)
| NotFound.                                                     (**r [curr] reached NULL *)

(** The loop [while (NULL != curr)] of [hashtable_add] from [curr] on:
    the chain as the loop leaves it. *)
Fixpoint add_scan (alloc : bool) (m : memory) (curr : list hashtable_element_t)
         (key : string) (e size : Z) : add_scan_result :=
  match curr with
  | [] => NotFound
  | c :: next =>
      if strcmp c.(elt.key) key =? 0 then
        (* Element found *)
        let '(c, m) :=
          if alloc && negb (c.(elt.e) =? NULL)
          then (set_e c NULL, free m c.(elt.e))
          else (c, m) in
        if alloc && negb (e =? NULL) && negb (size =? 0) then
          let (p, m) := malloc m size in
          let c := set_e c p in
          if p =? NULL then
            (* Unable to allocate memory *)
            UpdateFailed (c :: next) m
          else Updated (c :: next) (memcpy m p e size)
        else Updated (set_e c e :: next) m
      else
        match add_scan alloc m next key e size with
        | Updated next' m' => Updated (c :: next') m'
        | UpdateFailed next' m' => UpdateFailed (c :: next') m'
        | NotFound => NotFound
        end
  end.

(** Linking a new element behind [last]: at the bucket head when the
    chain is empty, after its last element otherwise. *)
Definition link_tail (chain : list hashtable_element_t) (el : hashtable_element_t)
  : list hashtable_element_t :=
  match chain with
  | [] => [el]
  | _ :: _ => chain ++ [el]
  end.

(** [hashtable_add (hashtable, key, e, size)]: the [int] returned, the
    instance and the heap after the call. *)
Definition hashtable_add (m : memory) (hashtable : hashtable_t)
           (key : string) (e size : Z) : Z * hashtable_t * memory :=
  (* Wait semaphore *)
  let hashtable := sem_wait hashtable in
  (* Compute hash value of the wanted key *)
  let hash := hashtable_compute_hash hashtable key in
  (* Check if the element already exist, update the element in this case *)
  let curr := bucket hashtable hash in
  match add_scan hashtable.(ht.alloc) m curr key e size with
  | UpdateFailed chain m =>
      (-1, sem_post (set_bucket hashtable hash chain), m)
  | Updated chain m =>
      (0, sem_post (set_bucket hashtable hash chain), m)
  | NotFound =>
      (* Element not found, create a new hashtable element *)
      let (granted, m) := malloc_object Element m in
      if negb granted then (-1, sem_post hashtable, m)
      else
        (* Store key *)
        let (granted, m) := malloc_object KeyCopy m in
        if negb granted then (-1, sem_post hashtable, free_object Element m)
        else
          let link (el : hashtable_element_t) (m : memory) :=
            (* Add element to the hashtable *)
            let hashtable := set_bucket hashtable hash (link_tail curr el) in
            let hashtable := set_count hashtable (to_size (hashtable.(ht.count) + 1)) in
            (0, sem_post hashtable, m) in
          (* Store element *)
          if hashtable.(ht.alloc) && negb (e =? NULL) && negb (size =? 0) then
            let (p, m) := malloc m size in
            if p =? NULL then
              (-1, sem_post hashtable, free_object Element (free_object KeyCopy m))
            else link {| elt.key := strdup key; elt.e := p |} (memcpy m p e size)
          else link {| elt.key := strdup key; elt.e := e |} m
  end.

(** [hashtable_get_count (hashtable)]. *)
Definition hashtable_get_count (hashtable : hashtable_t) : Z * hashtable_t :=
  let hashtable := sem_wait hashtable in
  let count := hashtable.(ht.count) in
  (count, sem_post hashtable).

(** The loop of [hashtable_has_key] from [curr] on. *)
Fixpoint has_key_scan (curr : list hashtable_element_t) (key : string) : bool :=
  match curr with
  | [] => false
  | c :: next =>
      if strcmp c.(elt.key) key =? 0 then true else has_key_scan next key
  end.

(** [hashtable_has_key (hashtable, key)]. *)
Definition hashtable_has_key (hashtable : hashtable_t) (key : string) : bool * hashtable_t :=
  let hashtable := sem_wait hashtable in
  let hash := hashtable_compute_hash hashtable key in
  let found := has_key_scan (bucket hashtable hash) key in
  (found, sem_post hashtable).

(** The loop of [hashtable_lookup] from [curr] on; [e] starts as NULL. *)
Fixpoint lookup_scan (curr : list hashtable_element_t) (key : string) : Z :=
  match curr with
  | [] => NULL
  | c :: next =>
      if strcmp c.(elt.key) key =? 0 then c.(elt.e) else lookup_scan next key
  end.

(** [hashtable_lookup (hashtable, key)]. *)
Definition hashtable_lookup (hashtable : hashtable_t) (key : string) : Z * hashtable_t :=
  let hashtable := sem_wait hashtable in
  let hash := hashtable_compute_hash hashtable key in
  let e := lookup_scan (bucket hashtable hash) key in
  (e, sem_post hashtable).

(** The inner loop of [hashtable_get_keys] over one chain:
    [( *keys)[index] = curr->key; index++].  (A write past the end of the
    array is undefined in C; the model's write does nothing there.) *)
Fixpoint store_keys (ks : list (option string)) (index : nat)
         (curr : list hashtable_element_t) : list (option string) * nat :=
  match curr with
  | [] => (ks, index)
  | c :: next => store_keys (<[index := Some c.(elt.key)]> ks) (S index) next
  end.

(** The loop [for (hash = 0; hash < hashtable->size; hash++)], with
    [todo] rounds left. *)
Fixpoint keys_loop (hashtable : hashtable_t) (todo : nat) (hash : Z)
         (ks : list (option string)) (index : nat) : list (option string) * nat :=
  match todo with
  | O => (ks, index)
  | S todo' =>
      let (ks, index) := store_keys ks index (bucket hashtable hash) in
      keys_loop hashtable todo' (hash + 1) ks index
  end.

(** [malloc (count * sizeof (char * ))], the product taken in [size_t]. *)
Definition malloc_keys (m : memory) (count : Z) : Z * memory :=
  let bytes := to_size (count * Z.pos ptr_bytes) in
  malloc_block m (KeyArray (replicate (Z.to_nat (bytes / Z.pos ptr_bytes)) None)).

(** [hashtable_get_keys (hashtable, keys)], where [keys] stands for what
    the caller's variable [*keys] holds at the call: the count returned,
    what [*keys] holds after the call, the instance and the heap. *)
Definition hashtable_get_keys (m : memory) (hashtable : hashtable_t) (keys : Z)
  : Z * Z * hashtable_t * memory :=
  let hashtable := sem_wait hashtable in
  (* Get number of elements *)
  let count := hashtable.(ht.count) in
  (* Check if at least one element is in the hashtable *)
  if 0 <? count then
    (* Create table of keys *)
    let (keys, m) := malloc_keys m count in
    if negb (keys =? NULL) then
      (* Parse table and store keys *)
      let m :=
        match blocks m !! keys with
        | Some (KeyArray ks) =>
            let (ks, _) := keys_loop hashtable (Z.to_nat hashtable.(ht.size)) 0 ks O in
            set_blocks m (<[keys := KeyArray ks]> (blocks m))
        | _ => m
        end in
      (count, keys, sem_post hashtable, m)
    else (count, keys, sem_post hashtable, m)
  else (count, keys, sem_post hashtable, m).

(** The loop of [hashtable_remove] from [curr] on: the value of the
    element found and the chain without that element, or [None] when
    [curr] reaches NULL. *)
Fixpoint remove_scan (curr : list hashtable_element_t) (key : string)
  : option (Z * list hashtable_element_t) :=
  match curr with
  | [] => None
  | c :: next =>
      if strcmp c.(elt.key) key =? 0 then Some (c.(elt.e), next)
      else
        match remove_scan next key with
        | Some (e, next') => Some (e, c :: next')
        | None => None
        end
  end.

(** [hashtable_remove (hashtable, key)]. *)
Definition hashtable_remove (m : memory) (hashtable : hashtable_t) (key : string)
  : Z * hashtable_t * memory :=
  let hashtable := sem_wait hashtable in
  let hash := hashtable_compute_hash hashtable key in
  match remove_scan (bucket hashtable hash) key with
  | Some (e, chain) =>
      (* Element found: update the list of elements, release memory *)
      let hashtable := set_bucket hashtable hash chain in
      let m := free_object KeyCopy m in
      let m := free_object Element m in
      (e, sem_post hashtable, m)
  | None => (NULL, sem_post hashtable, m)
  end.

(** The inner loop of [hashtable_release] over one chain. *)
Fixpoint release_chain (alloc : bool) (m : memory) (curr : list hashtable_element_t) : memory :=
  match curr with
  | [] => m
  | tmp :: next =>
      let m := free_object KeyCopy m in
      let m := if alloc && negb (tmp.(elt.e) =? NULL) then free m tmp.(elt.e) else m in
      let m := free_object Element m in
      release_chain alloc m next
  end.

Fixpoint release_loop (hashtable : hashtable_t) (todo : nat) (hash : Z) (m : memory) : memory :=
  match todo with
  | O => m
  | S todo' =>
      release_loop hashtable todo' (hash + 1)
                   (release_chain hashtable.(ht.alloc) m (bucket hashtable hash))
  end.

(** [hashtable_release (hashtable)], [None] standing for NULL: the
    semaphore as the call leaves it before its storage is freed (when
    there is an instance), and the heap. *)
Definition hashtable_release (m : memory) (hashtable : option hashtable_t)
  : option sem_t * memory :=
  match hashtable with
  | None => (None, m)
  | Some hashtable =>
      let hashtable := sem_wait hashtable in
      (* Release hashtable elements *)
      let m := release_loop hashtable (Z.to_nat hashtable.(ht.size)) 0 m in
      (* Release table *)
      let m := free_object BucketArray m in
      (* Release semaphore *)
      let hashtable := sem_post hashtable in
      let s := sem_call SemClose hashtable.(ht.sem) in
      (* Release hashtable instance *)
      (Some s, free_object Instance m)
  end.
End Functions.

(** ** What the properties speak of *)

(** The bytes a value pointer addresses, when it addresses a payload. *)
Definition payload (m : memory) (p : Z) : option (list (option Z)) :=
  match blocks m !! p with
  | Some (Bytes bs) => Some bs
  | _ => None
  end.

(** The array of key references at an address, when there is one. *)
Definition key_array (m : memory) (p : Z) : option (list (option string)) :=
  match blocks m !! p with
  | Some (KeyArray ks) => Some ks
  | _ => None
  end.

(** The elements met by walking the buckets from index [hash] on, [todo]
    buckets of them, each chain from its head: the walk of
    [hashtable_get_keys] and [hashtable_release]. *)
Fixpoint walk_from (h : hashtable_t) (todo : nat) (hash : Z) : list hashtable_element_t :=
  match todo with
  | O => []
  | S todo' => bucket h hash ++ walk_from h todo' (hash + 1)
  end.

Definition walk (h : hashtable_t) : list hashtable_element_t :=
  walk_from h (Z.to_nat h.(ht.size)) 0.

(** The number of entries reachable by walking all bucket chains. *)
Definition entries (h : hashtable_t) : Z := Z.of_nat (length (walk h)).



(** The elements of a chain whose key is not [key]. *)
Definition others (key : string) (chain : list hashtable_element_t) : list hashtable_element_t :=
  filter (fun c => strcmp c.(elt.key) key <> 0) chain.

Section Reachability.
Context `{Host}.

(** The instances a program can hold: made by [hashtable_create] and
    passed through the public functions, whatever the heap is at each
    call. *)
Inductive reachable : hashtable_t -> Prop :=
| reach_create m size alloc h m' :
    0 < size < SIZE_MOD ->
    hashtable_create m size alloc = (Some h, m') ->
    reachable h
| reach_add h m key e size r h' m' :
    reachable h ->
    hashtable_add m h key e size = (r, h', m') ->
    reachable h'
| reach_remove h m key v h' m' :
    reachable h ->
    hashtable_remove m h key = (v, h', m') ->
    reachable h'
| reach_get_count h :
    reachable h -> reachable (hashtable_get_count h).2
| reach_has_key h key :
    reachable h -> reachable (hashtable_has_key h key).2
| reach_lookup h key :
    reachable h -> reachable (hashtable_lookup h key).2
| reach_get_keys h m keys :
    reachable h -> reachable (hashtable_get_keys m h keys).1.2.


(** The shape every reachable instance has. *)
Record table_wf (h : hashtable_t) : Prop := {
  wf_size : 0 < h.(ht.size) < SIZE_MOD;
  wf_length : length h.(ht.table) = Z.to_nat h.(ht.size);
  wf_chains : forall i chain,
      h.(ht.table) !! i = Some chain ->
      NoDup (map elt.key chain) /\
      Forall (fun k => c_str k = k /\ compute_hash h.(ht.size) k = Z.of_nat i)
             (map elt.key chain)
}.
End Reachability.

(** ** Sample states *)

Definition empty_heap : memory :=
  {| blocks := ∅; instances := 0; bucket_arrays := 0; elements := 0;
     key_copies := 0; fates := [] |}.

(** The heap once an instance and its bucket array are allocated. *)
Definition heap_created : memory :=
  {| blocks := ∅; instances := 1; bucket_arrays := 1; elements := 0;
     key_copies := 0; fates := [] |}.

(** [hashtable_create (1, false)]: one bucket, values borrowed. *)
Definition table_created : hashtable_t :=
  {| ht.table := [[]]; ht.size := 1; ht.count := 0; ht.alloc := false;
     ht.sem := sem_init 1 |}.

(** The same after [hashtable_add (hashtable, "a", 7, 0)] (7 standing for
    a pointer of the caller's). *)
Definition table_a : hashtable_t :=
  {| ht.table := [[{| elt.key := "a"; elt.e := 7 |}]];
     ht.size := 1; ht.count := 1; ht.alloc := false;
     ht.sem := {| initial := 1; calls := [SemWait; SemPost] |} |}.

Definition heap_a : memory :=
  {| blocks := ∅; instances := 1; bucket_arrays := 1; elements := 1;
     key_copies := 1; fates := [] |}.

(** And after [hashtable_remove (hashtable, "a")]. *)
Definition table_a_removed : hashtable_t :=
  {| ht.table := [[]]; ht.size := 1; ht.count := 1; ht.alloc := false;
     ht.sem := {| initial := 1; calls := [SemWait; SemPost; SemWait; SemPost] |} |}.

(** [hashtable_create (1, true)]: one bucket, values copied. *)
Definition table_copying : hashtable_t :=
  {| ht.table := [[]]; ht.size := 1; ht.count := 0; ht.alloc := true;
     ht.sem := sem_init 1 |}.

(** A heap where the caller has a buffer of two bytes at address 100. *)
Definition heap_src : memory :=
  {| blocks := {[100 := Bytes [Some 1; Some 2]]};
     instances := 1; bucket_arrays := 1; elements := 0; key_copies := 0;
     fates := [] |}.

(** [hashtable_create (64, false)], the table of the example program. *)
Definition table_64 : hashtable_t :=
  {| ht.table := replicate 64 []; ht.size := 64; ht.count := 0; ht.alloc := false;
     ht.sem := sem_init 1 |}.

(** The table that copies, once it holds "a" with a copy of the two
    bytes at 100. *)
Definition table_copied : hashtable_t :=
  {| ht.table := [[{| elt.key := "a"; elt.e := 101 |}]];
     ht.size := 1; ht.count := 1; ht.alloc := true;
     ht.sem := {| initial := 1; calls := [SemWait; SemPost] |} |}.

Definition heap_copied : memory :=
  {| blocks := <[101 := Bytes [Some 1; Some 2]]> {[100 := Bytes [Some 1; Some 2]]};
     instances := 1; bucket_arrays := 1; elements := 1; key_copies := 1;
     fates := [] |}.

(** The run of the example program: three keys, their values pointers to
    string literals (here 1001, 1002, 1003), the size that of a pointer. *)
Definition table_key1 : hashtable_t :=
  (hashtable_add (H := lp64) heap_created table_64 "key1" 1001 8).1.2.
Definition heap_key1 : memory :=
  (hashtable_add (H := lp64) heap_created table_64 "key1" 1001 8).2.
Definition table_key2 : hashtable_t :=
  (hashtable_add (H := lp64) heap_key1 table_key1 "key2" 1002 8).1.2.
Definition heap_key2 : memory :=
  (hashtable_add (H := lp64) heap_key1 table_key1 "key2" 1002 8).2.
Definition table_key3 : hashtable_t :=
  (hashtable_add (H := lp64) heap_key2 table_key2 "key3" 1003 8).1.2.
Definition heap_key3 : memory :=
  (hashtable_add (H := lp64) heap_key2 table_key2 "key3" 1003 8).2.

(** ** Sessions *)

Section Sessions.
Context `{Host}.


End Sessions.

(** ** The example program (hashtable_basic.c) *)

Definition EXIT_FAILURE : Z := 1.

Definition newline : string := String (ascii_of_nat 10) EmptyString.

(** The chars of a payload up to its first NUL; [None] when an
    indeterminate byte or the end of the payload comes first. *)
Fixpoint chars_until_NUL (bs : list (option Z)) : option string :=
  match bs with
  | [] => None
  | None :: _ => None
  | Some b :: rest =>
      if b =? 0 then Some EmptyString
      else match chars_until_NUL rest with
           | Some s => Some (String (ascii_of_N (Z.to_N b)) s)
           | None => None
           end
  end.

(** The C string [printf ("%s")] finds at an address, when there is one. *)
Definition string_at (m : memory) (p : Z) : option string :=
  match payload m p with
  | Some bs => chars_until_NUL bs
  | None => None
  end.

(** What [printf ("%s: %s\n", key, element)] writes. *)
Definition printed_line (key element : string) : string :=
  String.append key (String.append ": " (String.append element newline)).

Section Example.
Context `{Host}.

(** The loop [for (index = 0; index < count; index++)] of [main], with
    [todo] rounds left, over the array [keys] holds: what it prints, and
    the instance after the lookups.  [None] stands for undefined
    behaviour: [keys[index]] read from a slot that was never written or
    past the array, or [element] without a C string. *)
Fixpoint print_elements (m : memory) (hashtable : hashtable_t)
         (keys : list (option string)) (todo : nat) (index : nat)
  : option (list string * hashtable_t) :=
  match todo with
  | O => Some ([], hashtable)
  | S todo' =>
      match keys !! index with
      | Some (Some key) =>
          let (element, hashtable) := hashtable_lookup hashtable key in
          if negb (element =? NULL) then
            match string_at m element with
            | Some s =>
                match print_elements m hashtable keys todo' (S index) with
                | Some (out, hashtable) => Some (printed_line key s :: out, hashtable)
                | None => None
                end
            | None => None
            end
          else print_elements m hashtable keys todo' (S index)
      | _ => None
      end
  end.

(** [main], for the addresses the three string literals "element1",
    "element2" and "element3" have: the exit status, the lines written to
    the standard output, and the heap at exit; [None] for undefined
    behaviour. *)
Definition main (element1 element2 element3 : Z) (m : memory)
  : option (Z * list string * memory) :=
  (* Create hashtable instance *)
  match hashtable_create m 64 false with
  | (None, m) =>
      Some (EXIT_FAILURE, [String.append "unable to create hashtable instance" newline], m)
  | (Some hashtable, m) =>
      (* Add elements to the hashtable *)
      let '(_, hashtable, m) := hashtable_add m hashtable "key1" element1 (Z.pos ptr_bytes) in
      let '(_, hashtable, m) := hashtable_add m hashtable "key2" element2 (Z.pos ptr_bytes) in
      let '(_, hashtable, m) := hashtable_add m hashtable "key3" element3 (Z.pos ptr_bytes) in
      (* Print elements of the hashtable *)
      let keys := NULL in
      let '(count, keys, hashtable, m) := hashtable_get_keys m hashtable keys in
      let printed :=
        if negb (keys =? NULL) then
          match key_array m keys with
          | Some ks =>
              match print_elements m hashtable ks (Z.to_nat count) O with
              | Some (out, hashtable) => Some (out, hashtable, free m keys)
              | None => None
              end
          | None => None
          end
        else Some ([], hashtable, m) in
      match printed with
      | Some (out, hashtable, m) =>
          (* Release memory *)
          let (_, m) := hashtable_release m (Some hashtable) in
          Some (0, out, m)
      | None => None
      end
  end.
End Example.

(** The caller overwrites one of its buffers with the bytes [bs]. *)
Definition store (m : memory) (p : Z) (bs : list (option Z)) : memory :=
  set_blocks m (<[p := Bytes bs]> (blocks m)).

(** What the loop of [main] prints for the elements [cs], in their order:
    a line for each whose value is not NULL and addresses a C string. *)
Fixpoint lines_of (m : memory) (cs : list hashtable_element_t) : list string :=
  match cs with
  | [] => []
  | c :: cs' =>
      match string_at m c.(elt.e) with
      | Some s =>
          if c.(elt.e) =? NULL then lines_of m cs'
          else printed_line c.(elt.key) s :: lines_of m cs'
      | None => lines_of m cs'
      end
  end.


(** The bytes of a string literal: its chars and the terminating NUL. *)
Definition literal (s : string) : list (option Z) :=
  map (fun c => Some (uchar c)) (list_ascii_of_string s) ++ [Some 0].

(** A heap that holds the three string literals of the example program,
    at the addresses 1001, 1002 and 1003, and no object of a table. *)
Definition heap_literals : memory :=
  {| blocks := {[1001 := Bytes (literal "element1");
                 1002 := Bytes (literal "element2");
                 1003 := Bytes (literal "element3")]};
     instances := 0; bucket_arrays := 0; elements := 0; key_copies := 0;
     fates := [] |}.

(** A heap with the caller's buffer at 100 and no object of a table. *)
Definition heap_buffer : memory :=
  {| blocks := {[100 := Bytes [Some 1; Some 2]]};
     instances := 0; bucket_arrays := 0; elements := 0; key_copies := 0;
     fates := [] |}.
(** * Properties *)

(** ** C strings *)

Example strcmp_samples :
  strcmp "abc" "abc" = 0 /\ strcmp "abc" "abd" = -1 /\ strcmp "abd" "abc" = 1 /\
  strcmp "ab" "abc" = -99 /\ strcmp "" "" = 0 /\
  strcmp (String "a" (String NUL "b")) "a" = 0.
Proof. repeat split. Qed.

Example c_str_samples :
  c_str "key1" = "key1"%string /\ c_str (String "a" (String NUL "b")) = "a"%string.
Proof. split; reflexivity. Qed.

Lemma uchar_range (c : ascii) : 0 <= uchar c < 256.
Proof.
  unfold uchar. pose proof (N_ascii_bounded c). lia.
Qed.

Lemma uchar_inj (a b : ascii) : uchar a = uchar b -> a = b.
Proof.
  unfold uchar. intros Hab.
  rewrite <- (ascii_N_embedding a), <- (ascii_N_embedding b).
  f_equal. lia.
Qed.

Lemma uchar_NUL (c : ascii) : uchar c = 0 <-> c = NUL.
Proof.
  split.
  - intros Hc. apply uchar_inj. rewrite Hc. reflexivity.
  - intros ->. reflexivity.
Qed.

Lemma eqb_NUL (c : ascii) : Ascii.eqb c NUL = (uchar c =? 0).
Proof.
  destruct (Ascii.eqb_spec c NUL) as [-> | Hne]; [reflexivity |].
  symmetry. apply Z.eqb_neq. intros Hc. apply Hne, uchar_NUL, Hc.
Qed.

Lemma c_str_idemp (s : string) : c_str (c_str s) = c_str s.
Proof.
  induction s as [| c s IH]; simpl; [reflexivity |].
  destruct (Ascii.eqb c NUL) eqn:Hc; simpl; [reflexivity |].
  rewrite Hc, IH. reflexivity.
Qed.

(** [strcmp] returns 0 exactly on two spellings of one C string. *)
Lemma strcmp_0_iff (s1 s2 : string) : strcmp s1 s2 = 0 <-> c_str s1 = c_str s2.
Proof.
  revert s2. induction s1 as [| c1 s1 IH]; intros s2.
  - destruct s2 as [| c2 s2]; simpl; [tauto |].
    rewrite eqb_NUL. pose proof (uchar_range c2).
    destruct (Z.eqb_spec (uchar c2) 0); split; intros; try done; lia.
  - simpl strcmp. simpl c_str. rewrite eqb_NUL.
    pose proof (uchar_range c1).
    destruct s2 as [| c2 s2]; simpl head_char; simpl c_str.
    + change (uchar NUL) with 0.
      destruct (Z.eqb_spec (uchar c1) 0) as [-> | Hc1]; simpl; [tauto |].
      split; intros; try done; lia.
    + rewrite eqb_NUL. pose proof (uchar_range c2).
      destruct (Z.eqb_spec (uchar c1) (uchar c2)) as [Heq | Hne]; simpl.
      * apply uchar_inj in Heq as <-.
        destruct (Z.eqb_spec (uchar c1) 0); [tauto |].
        rewrite IH. split; [intros -> | intros [=]]; done.
      * destruct (Z.eqb_spec (uchar c1) 0), (Z.eqb_spec (uchar c2) 0);
          split; intros Hx; try lia; try done.
        injection Hx as Hc _. subst. done.
Qed.

Lemma strcmp_c_str_l (s1 s2 : string) : (strcmp (c_str s1) s2 =? 0) = (strcmp s1 s2 =? 0).
Proof.
  destruct (Z.eqb_spec (strcmp s1 s2) 0) as [Heq | Hne].
  - apply Z.eqb_eq, strcmp_0_iff. rewrite c_str_idemp. apply strcmp_0_iff, Heq.
  - apply Z.eqb_neq. intros Heq. apply Hne, strcmp_0_iff.
    apply strcmp_0_iff in Heq. rewrite c_str_idemp in Heq. exact Heq.
Qed.

(** Two elements that compare equal to one key compare equal to the same
    keys. *)
Lemma strcmp_trans_eqb (k s1 s2 : string) :
  strcmp k s1 = 0 -> (strcmp k s2 =? 0) = (strcmp s1 s2 =? 0).
Proof.
  intros Hk. apply strcmp_0_iff in Hk.
  destruct (Z.eqb_spec (strcmp s1 s2) 0) as [Heq | Hne].
  - apply Z.eqb_eq, strcmp_0_iff. rewrite Hk. apply strcmp_0_iff, Heq.
  - apply Z.eqb_neq. intros Heq. apply Hne, strcmp_0_iff.
    rewrite <- Hk. apply strcmp_0_iff, Heq.
Qed.

(** ** The hash *)

Example djb2_samples :
  djb2_loop (H := lp64) 5381 "" = 5381 /\
  djb2_loop (H := lp64) 5381 "a" = 177670 /\
  djb2_loop (H := lp64) 5381 "key1" = 6385400191 /\
  djb2_loop (H := ilp32) 5381 "key1" = 2090432895 /\
  compute_hash (H := lp64) 64 "key1" = 63 /\
  compute_hash (H := lp64) 64 "key2" = 0 /\
  compute_hash (H := lp64) 64 "key3" = 1.
Proof. repeat split. Qed.

(** A char above 127 enters the hash as a negative [int] where [char] is
    signed, as the byte itself where it is not. *)
Example djb2_char_sign :
  djb2_loop (H := lp64) 5381 (String (ascii_of_nat 195) "") = 5381 * 33 + 195 - 256 /\
  djb2_loop (H := ilp32) 5381 (String (ascii_of_nat 195) "") = 5381 * 33 + 195.
Proof. split; reflexivity. Qed.

Section HashFacts.
Context `{Host}.

Lemma ULONG_MOD_pos : 0 < ULONG_MOD.
Proof. unfold ULONG_MOD. apply Z.pow_pos_nonneg; lia. Qed.

Lemma SIZE_MOD_pos : 0 < SIZE_MOD.
Proof. unfold SIZE_MOD. apply Z.pow_pos_nonneg; lia. Qed.

Lemma char_to_int_0 (c : ascii) : (char_to_int c =? 0) = (uchar c =? 0).
Proof.
  unfold char_to_int. pose proof (uchar_range c).
  destruct (char_signed && (128 <=? uchar c)) eqn:Hs; [| reflexivity].
  apply andb_true_iff in Hs as [_ Hs]. apply Z.leb_le in Hs.
  destruct (Z.eqb_spec (uchar c - 256) 0), (Z.eqb_spec (uchar c) 0); lia || reflexivity.
Qed.

(** One round of the loop is [hash * 33 + c] at the width of
    [unsigned long]. *)
Lemma djb2_round (hash c : Z) :
  to_ulong (to_ulong (to_ulong (Z.shiftl hash 5) + hash) + to_ulong c)
  = (hash * 33 + c) mod ULONG_MOD.
Proof.
  unfold to_ulong. rewrite Z.shiftl_mul_pow2 by lia.
  rewrite <- Zplus_mod, <- Z.add_assoc, Zplus_mod_idemp_l.
  f_equal. lia.
Qed.

Lemma djb2_loop_spec (key : string) (hash : Z) :
  djb2_loop hash key
  = fold_left (fun hash c => (hash * 33 + c) mod ULONG_MOD)
              (map char_to_int (list_ascii_of_string (c_str key))) hash.
Proof.
  revert hash. induction key as [| ch key IH]; intros hash; simpl; [reflexivity |].
  rewrite char_to_int_0, eqb_NUL.
  destruct (uchar ch =? 0); simpl; [reflexivity |].
  rewrite IH, djb2_round. reflexivity.
Qed.

(** For a key of chars below 128, and for any key where [char] is
    unsigned, [c] is the byte. *)
Lemma djb2_spec_bytes (key : string) :
  char_signed = false \/
  Forall (fun ch => uchar ch < 128) (list_ascii_of_string (c_str key)) ->
  djb2_spec key
  = fold_left (fun hash c => (hash * 33 + c) mod ULONG_MOD)
              (map uchar (list_ascii_of_string (c_str key))) 5381.
Proof.
  intros Hbytes. unfold djb2_spec. f_equal.
  apply map_ext_Forall. destruct Hbytes as [Hu | Hall].
  - apply Forall_forall. intros ch _. unfold char_to_int. rewrite Hu. reflexivity.
  - eapply Forall_impl; [exact Hall |]. intros ch Hch. simpl in Hch.
    unfold char_to_int. destruct (Z.leb_spec 128 (uchar ch)); [lia |].
    rewrite andb_false_r. reflexivity.
Qed.

Lemma compute_hash_c_str (size : Z) (key : string) :
  compute_hash size (c_str key) = compute_hash size key.
Proof.
  unfold compute_hash. rewrite !djb2_loop_spec, c_str_idemp. reflexivity.
Qed.

Lemma compute_hash_range (size : Z) (key : string) :
  0 < size -> 0 <= compute_hash size key < size.
Proof. intros Hs. unfold compute_hash. apply Z.mod_pos_bound, Hs. Qed.

End HashFacts.

(** ** Buckets *)

Lemma set_table_id (h : hashtable_t) : set_table h h.(ht.table) = h.
Proof. destruct h; reflexivity. Qed.

Lemma bucket_set_bucket_eq (h : hashtable_t) (i : Z) (chain : list hashtable_element_t) :
  (Z.to_nat i < length h.(ht.table))%nat ->
  bucket (set_bucket h i chain) i = chain.
Proof.
  intros Hi. unfold bucket, set_bucket. simpl.
  rewrite list_lookup_insert_eq by exact Hi. reflexivity.
Qed.

Lemma bucket_set_bucket_ne (h : hashtable_t) (i j : Z) (chain : list hashtable_element_t) :
  Z.to_nat i <> Z.to_nat j ->
  bucket (set_bucket h i chain) j = bucket h j.
Proof.
  intros Hij. unfold bucket, set_bucket. simpl.
  rewrite list_lookup_insert_ne by exact Hij. reflexivity.
Qed.

Lemma set_bucket_out (h : hashtable_t) (i : Z) (chain : list hashtable_element_t) :
  (length h.(ht.table) <= Z.to_nat i)%nat ->
  set_bucket h i chain = h.
Proof.
  intros Hi. unfold set_bucket. rewrite list_insert_ge by exact Hi.
  apply set_table_id.
Qed.

(** Storing into a bucket a chain that an observation [f] cannot tell from
    the one that was there leaves [f] unchanged on every bucket. *)
Lemma bucket_set_bucket_same {A : Type} (f : list hashtable_element_t -> A)
      (h : hashtable_t) (i j : Z) (chain : list hashtable_element_t) :
  f chain = f (bucket h i) ->
  f (bucket (set_bucket h i chain) j) = f (bucket h j).
Proof.
  intros Hf.
  destruct (decide (Z.to_nat i = Z.to_nat j)) as [Heq | Hne].
  - destruct (decide (Z.to_nat i < length h.(ht.table))%nat) as [Hin | Hout].
    + assert (Hb : bucket h j = bucket h i) by (unfold bucket; rewrite Heq; reflexivity).
      rewrite Hb. unfold bucket at 1. rewrite <- Heq. fold (bucket (set_bucket h i chain) i).
      rewrite bucket_set_bucket_eq by exact Hin. exact Hf.
    + rewrite set_bucket_out by lia. reflexivity.
  - rewrite bucket_set_bucket_ne by exact Hne. reflexivity.
Qed.

(** ** The chain scans *)


Lemma remove_scan_None (curr : list hashtable_element_t) (key : string) :
  remove_scan curr key = None <-> has_key_scan curr key = false.
Proof.
  induction curr as [| c next IH]; simpl; [tauto |].
  destruct (strcmp c.(elt.key) key =? 0); [split; discriminate |].
  destruct (remove_scan next key) as [[v next'] |].
  - split; [discriminate |]. intros Hx. apply IH in Hx. discriminate.
  - split; [| reflexivity]. intros _. apply IH. reflexivity.
Qed.

(** A key that is another C string than [k1] is looked up among the
    elements that are not [k1]'s. *)
Lemma lookup_scan_others (k1 k2 : string) (curr : list hashtable_element_t) :
  c_str k1 <> c_str k2 ->
  lookup_scan curr k2 = lookup_scan (others k1 curr) k2.
Proof.
  intros Hk. unfold others.
  induction curr as [| c next IH]; [reflexivity |].
  rewrite filter_cons. simpl. destruct (decide (strcmp c.(elt.key) k1 <> 0)) as [Hc | Hc].
  - simpl. rewrite IH. reflexivity.
  - assert (Hc1 : strcmp c.(elt.key) k1 = 0) by lia.
    assert (Hc2 : strcmp c.(elt.key) k2 <> 0).
    { intros Hc2. apply Hk. apply strcmp_0_iff in Hc1, Hc2. congruence. }
    apply Z.eqb_neq in Hc2. rewrite Hc2. exact IH.
Qed.

Lemma has_key_scan_others (k1 k2 : string) (curr : list hashtable_element_t) :
  c_str k1 <> c_str k2 ->
  has_key_scan curr k2 = has_key_scan (others k1 curr) k2.
Proof.
  intros Hk. unfold others.
  induction curr as [| c next IH]; [reflexivity |].
  rewrite filter_cons. simpl. destruct (decide (strcmp c.(elt.key) k1 <> 0)) as [Hc | Hc].
  - simpl. rewrite IH. reflexivity.
  - assert (Hc1 : strcmp c.(elt.key) k1 = 0) by lia.
    assert (Hc2 : strcmp c.(elt.key) k2 <> 0).
    { intros Hc2. apply Hk. apply strcmp_0_iff in Hc1, Hc2. congruence. }
    apply Z.eqb_neq in Hc2. rewrite Hc2. exact IH.
Qed.

Section ScanFacts.
Context `{Host}.

(** The update of [hashtable_add] touches the value of one element, whose
    key is [key], and no key. *)
Lemma add_scan_others (alloc : bool) (m : memory) (curr : list hashtable_element_t)
      (key : string) (e size : Z) (chain : list hashtable_element_t) (m' : memory) :
  add_scan alloc m curr key e size = Updated chain m' \/
  add_scan alloc m curr key e size = UpdateFailed chain m' ->
  others key chain = others key curr /\ map elt.key chain = map elt.key curr.
Proof.
  revert chain. induction curr as [| c next IH]; intros chain Hscan; simpl in Hscan.
  - destruct Hscan; discriminate.
  - destruct (Z.eqb_spec (strcmp c.(elt.key) key) 0) as [Hc | Hc].
    + assert (Hhead : forall p, others key (set_e c p :: next) = others key (c :: next)).
      { intros p. unfold others. rewrite !filter_cons. simpl.
        destruct (decide (strcmp c.(elt.key) key <> 0)); [lia | reflexivity]. }
      destruct (alloc && negb (c.(elt.e) =? NULL));
        destruct (alloc && negb (e =? NULL) && negb (size =? 0));
        try destruct (malloc _ size) as [p m1]; try destruct (p =? NULL);
        destruct Hscan as [Hscan | Hscan]; inversion Hscan; subst;
        split; try reflexivity; apply (Hhead _).
    + destruct (add_scan alloc m next key e size) as [next' m1 | next' m1 |] eqn:Hnext;
        destruct Hscan as [Hscan | Hscan]; inversion Hscan; subst.
      * destruct (IH next') as [IH1 IH2]; [left; reflexivity |].
        unfold others in *. rewrite !filter_cons. simpl. rewrite IH1, IH2. done.
      * destruct (IH next') as [IH1 IH2]; [right; reflexivity |].
        unfold others in *. rewrite !filter_cons. simpl. rewrite IH1, IH2. done.
Qed.

Lemma add_scan_NotFound (alloc : bool) (m : memory) (curr : list hashtable_element_t)
      (key : string) (e size : Z) :
  add_scan alloc m curr key e size = NotFound <-> has_key_scan curr key = false.
Proof.
  induction curr as [| c next IH]; simpl; [tauto |].
  destruct (strcmp c.(elt.key) key =? 0).
  - destruct (alloc && negb (c.(elt.e) =? NULL));
      destruct (alloc && negb (e =? NULL) && negb (size =? 0));
      try destruct (malloc _ size) as [p m1]; try destruct (p =? NULL);
      split; discriminate.
  - destruct (add_scan alloc m next key e size); split; intros Hx;
      try discriminate; try reflexivity.
    + apply IH in Hx. discriminate.
    + apply IH in Hx. discriminate.
    + apply IH. reflexivity.
Qed.

Lemma link_tail_app (chain : list hashtable_element_t) (el : hashtable_element_t) :
  link_tail chain el = chain ++ [el].
Proof. destruct chain; reflexivity. Qed.

Lemma others_link_tail (chain : list hashtable_element_t) (key : string) (p : Z) :
  others key (link_tail chain {| elt.key := strdup key; elt.e := p |}) = others key chain.
Proof.
  rewrite link_tail_app. unfold others. rewrite filter_app, filter_cons. simpl.
  destruct (decide (strcmp (strdup key) key <> 0)) as [Hc | Hc].
  - exfalso. apply Hc. apply strcmp_0_iff. apply c_str_idemp.
  - rewrite filter_nil, app_nil_r. reflexivity.
Qed.

(** [hashtable_remove] unlinks one element, whose key is [key]. *)
Lemma remove_scan_others (curr : list hashtable_element_t) (key : string)
      (v : Z) (chain : list hashtable_element_t) :
  remove_scan curr key = Some (v, chain) ->
  others key chain = others key curr /\
  length curr = S (length chain) /\
  v = lookup_scan curr key.
Proof.
  revert chain. induction curr as [| c next IH]; intros chain Hscan; simpl in Hscan.
  - discriminate.
  - unfold others. rewrite filter_cons. simpl.
    destruct (Z.eqb_spec (strcmp c.(elt.key) key) 0) as [Hc | Hc].
    + inversion Hscan; subst.
      destruct (decide (strcmp c.(elt.key) key <> 0)); [lia | done].
    + destruct (remove_scan next key) as [[v' next'] |]; [| discriminate].
      inversion Hscan; subst.
      destruct (IH next' eq_refl) as (IH1 & IH2 & IH3).
      rewrite filter_cons.
      destruct (decide (strcmp c.(elt.key) key <> 0)); [| lia].
      unfold others in IH1. rewrite IH1. simpl. rewrite IH2. done.
Qed.
End ScanFacts.

(** ** The frame of [hashtable_add] and [hashtable_remove] *)

Section Frame.
Context `{Host}.

(** Splits the goal along the paths of [hashtable_add]. *)
Ltac add_paths :=
  unfold hashtable_add;
  repeat match goal with
    | |- context [match add_scan ?a ?m ?c ?k ?e ?s with _ => _ end] =>
        let Hscan := fresh "Hscan" in
        destruct (add_scan a m c k e s) as [? ? | ? ? |] eqn:Hscan
    | |- context [let (_, _) := malloc_object ?k ?m in _] =>
        let Hobj := fresh "Hobj" in
        destruct (malloc_object k m) as [[] ?] eqn:Hobj
    | |- context [let (_, _) := malloc ?m ?s in _] =>
        let Hmal := fresh "Hmal" in
        destruct (malloc m s) as [? ?] eqn:Hmal
    | |- context [if ?b then _ else _] =>
        let Hb := fresh "Hb" in destruct b eqn:Hb
    end;
  simpl.

Lemma hashtable_add_size (m : memory) (h : hashtable_t) (key : string) (e size : Z) :
  (hashtable_add m h key e size).1.2.(ht.size) = h.(ht.size).
Proof. add_paths; reflexivity. Qed.


Lemma hashtable_add_length (m : memory) (h : hashtable_t) (key : string) (e size : Z) :
  length (hashtable_add m h key e size).1.2.(ht.table) = length h.(ht.table).
Proof. add_paths; rewrite ?length_insert; reflexivity. Qed.

Lemma hashtable_add_others (m : memory) (h : hashtable_t) (key : string) (e size : Z) (j : Z) :
  others key (bucket (hashtable_add m h key e size).1.2 j) = others key (bucket h j).
Proof.
  add_paths; try reflexivity;
    apply (bucket_set_bucket_same (others key) (sem_wait h));
    match goal with
    | Hscan : add_scan _ _ _ _ _ _ = Updated _ _ |- _ =>
        eapply add_scan_others; left; exact Hscan
    | Hscan : add_scan _ _ _ _ _ _ = UpdateFailed _ _ |- _ =>
        eapply add_scan_others; right; exact Hscan
    | Hscan : add_scan _ _ _ _ _ _ = NotFound |- _ => apply others_link_tail
    end.
Qed.

Lemma hashtable_remove_size (m : memory) (h : hashtable_t) (key : string) :
  (hashtable_remove m h key).1.2.(ht.size) = h.(ht.size).
Proof.
  unfold hashtable_remove.
  destruct (remove_scan _ key) as [[v chain] |]; reflexivity.
Qed.

Lemma hashtable_remove_others (m : memory) (h : hashtable_t) (key : string) (j : Z) :
  others key (bucket (hashtable_remove m h key).1.2 j) = others key (bucket h j).
Proof.
  unfold hashtable_remove.
  destruct (remove_scan _ key) as [[v chain] |] eqn:Hscan; [| reflexivity].
  apply (bucket_set_bucket_same (others key) (sem_wait h)).
  apply remove_scan_others in Hscan. tauto.
Qed.

(** What [hashtable_lookup] and [hashtable_has_key] return depends, for a
    key that is not the C string [k1], on the elements that are not
    [k1]'s. *)
Lemma lookup_by_others (h h' : hashtable_t) (k1 k2 : string) :
  c_str k1 <> c_str k2 ->
  h'.(ht.size) = h.(ht.size) ->
  (forall j, others k1 (bucket h' j) = others k1 (bucket h j)) ->
  (hashtable_lookup h' k2).1 = (hashtable_lookup h k2).1 /\
  (hashtable_has_key h' k2).1 = (hashtable_has_key h k2).1.
Proof.
  intros Hk Hsize Hothers.
  unfold hashtable_lookup, hashtable_has_key, hashtable_compute_hash. simpl.
  rewrite Hsize.
  change (bucket (sem_wait h') ?j) with (bucket h' j).
  change (bucket (sem_wait h) ?j) with (bucket h j).
  set (hash := compute_hash h.(ht.size) k2).
  rewrite (lookup_scan_others k1 k2 (bucket h' hash) Hk),
    (lookup_scan_others k1 k2 (bucket h hash) Hk),
    (has_key_scan_others k1 k2 (bucket h' hash) Hk),
    (has_key_scan_others k1 k2 (bucket h hash) Hk).
  rewrite Hothers. done.
Qed.

(** C10.  For two keys that are different C strings, [hashtable_add] on
    the first (whatever it returns) and [hashtable_remove] on the first
    leave what [hashtable_lookup] and [hashtable_has_key] return for the
    second as it was; in every bucket the elements whose key is not the
    first key are the same, in the same order, after the call. *)
Theorem add_remove_frame (m : memory) (hashtable : hashtable_t) (k1 k2 : string) (e size : Z) :
  c_str k1 <> c_str k2 ->
  let h_add := (hashtable_add m hashtable k1 e size).1.2 in
  let h_rem := (hashtable_remove m hashtable k1).1.2 in
  ((hashtable_lookup h_add k2).1 = (hashtable_lookup hashtable k2).1 /\
   (hashtable_has_key h_add k2).1 = (hashtable_has_key hashtable k2).1) /\
  ((hashtable_lookup h_rem k2).1 = (hashtable_lookup hashtable k2).1 /\
   (hashtable_has_key h_rem k2).1 = (hashtable_has_key hashtable k2).1) /\
  (forall hash, others k1 (bucket h_add hash) = others k1 (bucket hashtable hash)) /\
  (forall hash, others k1 (bucket h_rem hash) = others k1 (bucket hashtable hash)).
Proof.
  intros Hk h_add h_rem. repeat split.
  - apply (lookup_by_others hashtable h_add k1 k2 Hk);
      [apply hashtable_add_size | apply hashtable_add_others].
  - apply (lookup_by_others hashtable h_add k1 k2 Hk);
      [apply hashtable_add_size | apply hashtable_add_others].
  - apply (lookup_by_others hashtable h_rem k1 k2 Hk);
      [apply hashtable_remove_size | apply hashtable_remove_others].
  - apply (lookup_by_others hashtable h_rem k1 k2 Hk);
      [apply hashtable_remove_size | apply hashtable_remove_others].
  - apply hashtable_add_others.
  - apply hashtable_remove_others.
Qed.
End Frame.

(** ** [hashtable_remove] of a key that is absent *)

Section Remove.
Context `{Host}.

(** C7.  [hashtable_remove] of a key the table does not hold returns NULL
    and changes neither the bucket array and its chains, nor [count], nor
    the heap, so neither what [hashtable_lookup] and [hashtable_has_key]
    return for any key. *)
Theorem hashtable_remove_absent (m : memory) (hashtable : hashtable_t) (key : string) :
  (hashtable_has_key hashtable key).1 = false ->
  let '(e, hashtable', m') := hashtable_remove m hashtable key in
  e = NULL /\
  hashtable'.(ht.table) = hashtable.(ht.table) /\
  hashtable'.(ht.count) = hashtable.(ht.count) /\
  hashtable'.(ht.size) = hashtable.(ht.size) /\
  hashtable'.(ht.alloc) = hashtable.(ht.alloc) /\
  m' = m /\
  (forall k, (hashtable_lookup hashtable' k).1 = (hashtable_lookup hashtable k).1) /\
  (forall k, (hashtable_has_key hashtable' k).1 = (hashtable_has_key hashtable k).1) /\
  (hashtable_get_count hashtable').1 = (hashtable_get_count hashtable).1.
Proof.
  intros Habsent. unfold hashtable_has_key in Habsent. simpl in Habsent.
  unfold hashtable_remove.
  apply remove_scan_None in Habsent. rewrite Habsent.
  repeat split; reflexivity.
Qed.
End Remove.

(** ** The allocator *)

Lemma request_blocks (m : memory) : blocks (request m).2 = blocks m.
Proof. unfold request. destruct (fates m) as [| [] ?]; reflexivity. Qed.

Lemma request_live (k : kind) (m : memory) : live k (request m).2 = live k m.
Proof. unfold request. destruct (fates m) as [| [] ?], k; reflexivity. Qed.

(** [malloc] returns NULL and leaves the blocks alone, or returns the
    address of a new block, which is not NULL and was not live. *)
Lemma malloc_block_spec (m : memory) (init : block) (p : Z) (m' : memory) :
  malloc_block m init = (p, m') ->
  (forall k, live k m' = live k m) /\
  ((request m).1 = None /\ p = NULL /\ blocks m' = blocks m \/
   is_Some (request m).1 /\ p <> NULL /\ blocks m !! p = None /\
   blocks m' = <[p := init]> (blocks m)).
Proof.
  unfold malloc_block. pose proof (request_blocks m) as Hb.
  pose proof (fun k => request_live k m) as Hl.
  destruct (request m) as [[addr |] m1]; simpl in *; intros [= <- <-].
  - split; [intros k; rewrite <- Hl; destruct k; reflexivity |].
    right. rewrite Hb.
    set (taken := {[NULL]} ∪ dom (blocks m) : gset Z).
    assert (Hfree : (if decide (addr ∈ taken) then fresh taken else addr) ∉ taken).
    { destruct (decide (addr ∈ taken)); [apply is_fresh | assumption]. }
    split; [eauto |]. split; [| split; [| reflexivity]].
    + intros Hp. apply Hfree. rewrite Hp. set_solver.
    + apply not_elem_of_dom. set_solver.
  - split; [exact Hl |]. left. done.
Qed.

Lemma malloc_object_spec (k : kind) (m : memory) (granted : bool) (m' : memory) :
  malloc_object k m = (granted, m') ->
  blocks m' = blocks m /\
  (granted = true <-> is_Some (request m).1) /\
  forall k', live k' m' = if granted && bool_decide (k' = k) then live k' m + 1 else live k' m.
Proof.
  unfold malloc_object. pose proof (request_blocks m) as Hb.
  pose proof (fun k => request_live k m) as Hl.
  destruct (request m) as [[addr |] m1]; simpl in *; intros [= <- <-]; simpl.
  - split; [exact Hb |]. split; [split; eauto |].
    intros k'. rewrite <- Hl. destruct k, k'; reflexivity.
  - split; [exact Hb |]. split.
    + split; [discriminate | intros [? [=]]].
    + intros k'. apply Hl.
Qed.

Lemma free_object_live (k k' : kind) (m : memory) :
  live k' (free_object k m) = if bool_decide (k' = k) then live k' m - 1 else live k' m.
Proof. destruct k, k'; reflexivity. Qed.

Lemma payload_free_ne (m : memory) (p q : Z) :
  p <> q -> payload (free m q) p = payload m p.
Proof.
  intros Hpq. unfold payload, free. simpl.
  rewrite lookup_delete_ne by congruence. reflexivity.
Qed.

Lemma payload_free_eq (m : memory) (p : Z) : payload (free m p) p = None.
Proof. unfold payload, free. simpl. rewrite lookup_delete_eq. reflexivity. Qed.

(** A payload that is allocated and then filled by [memcpy] from a live
    payload holds the first [size] bytes of its source. *)
Lemma malloc_memcpy_payload (m : memory) (size e p : Z) (m1 : memory) (bs : list (option Z)) :
  malloc m size = (p, m1) ->
  p <> NULL ->
  payload m e = Some bs ->
  payload (memcpy m1 p e size) p = Some (take (Z.to_nat size) bs).
Proof.
  intros Hmal Hp He. unfold malloc in Hmal.
  apply malloc_block_spec in Hmal as [_ [(_ & Hnull & _) | (_ & _ & Hfresh & Hblocks)]];
    [contradiction |].
  unfold payload in He.
  destruct (blocks m !! e) as [[s | ?] |] eqn:Hsrc; try discriminate.
  injection He as ->.
  assert (Hpe : p <> e) by (intros ->; congruence).
  unfold memcpy, payload. rewrite Hblocks.
  rewrite lookup_insert_eq, lookup_insert_ne, Hsrc by exact Hpe. simpl.
  rewrite lookup_insert_eq.
  rewrite drop_replicate, Nat.sub_diag. simpl. rewrite app_nil_r. reflexivity.
Qed.

(** ** [hashtable_add] of a key that is present *)

Section Update.
Context `{Host}.

Lemma bucket_in_range (h : hashtable_t) (hash : Z) :
  bucket h hash <> [] -> (Z.to_nat hash < length h.(ht.table))%nat.
Proof.
  unfold bucket. intros Hne.
  destruct (h.(ht.table) !! Z.to_nat hash) eqn:Hl; [| done].
  eapply lookup_lt_Some, Hl.
Qed.

Lemma has_key_scan_nonempty (curr : list hashtable_element_t) (key : string) :
  has_key_scan curr key = true -> curr <> [].
Proof. destruct curr; [discriminate | done]. Qed.

Lemma lookup_in_range (h : hashtable_t) (hash : Z) :
  (Z.to_nat hash < length h.(ht.table))%nat ->
  h.(ht.table) !! Z.to_nat hash = Some (bucket h hash).
Proof.
  intros Hlt. unfold bucket.
  destruct (lookup_lt_is_Some_2 _ _ Hlt) as [chain ->]. reflexivity.
Qed.

(** The update leaves the keys of the chain as they are and makes the new
    value what a lookup of the key finds: the pointer [e] itself, or, in a
    table that copies its values, a new payload with the bytes of [e]. *)
Lemma add_scan_Updated (alloc : bool) (m : memory) (curr : list hashtable_element_t)
      (key : string) (e size : Z) (chain : list hashtable_element_t) (m' : memory) :
  add_scan alloc m curr key e size = Updated chain m' ->
  has_key_scan chain key = true /\
  if alloc && negb (e =? NULL) && negb (size =? 0)
  then lookup_scan chain key <> NULL /\
       forall bs, payload m e = Some bs ->
                  e <> lookup_scan curr key ->
                  payload m' (lookup_scan chain key) = Some (take (Z.to_nat size) bs)
  else lookup_scan chain key = e.
Proof.
  revert chain. induction curr as [| c next IH]; intros chain Hscan; simpl in Hscan.
  - discriminate.
  - simpl lookup_scan.
    destruct (strcmp c.(elt.key) key =? 0) eqn:Hc.
    + destruct (alloc && negb (e =? NULL) && negb (size =? 0)) eqn:Hcopy.
      * set (m1 := if alloc && negb (c.(elt.e) =? NULL) then free m c.(elt.e) else m).
        assert (Hm1 : forall bs, payload m e = Some bs -> e <> c.(elt.e) ->
                                 payload m1 e = Some bs).
        { intros bs Hbs Hne. subst m1.
          destruct (alloc && negb (c.(elt.e) =? NULL)); [| exact Hbs].
          rewrite payload_free_ne by exact Hne. exact Hbs. }
        assert (Hmal : exists p m2, malloc m1 size = (p, m2) /\
                  (if p =? NULL then UpdateFailed (set_e c p :: next) m2
                   else Updated (set_e c p :: next) (memcpy m2 p e size))
                  = Updated chain m').
        { subst m1. destruct (alloc && negb (c.(elt.e) =? NULL));
            destruct (malloc _ size) as [p m2]; exists p, m2; split; done. }
        destruct Hmal as (p & m2 & Hmal & Hres).
        destruct (Z.eqb_spec p NULL) as [Hp | Hp]; [discriminate |].
        injection Hres as <- <-. simpl. rewrite Hc. simpl.
        repeat split; [exact Hp |].
        intros bs Hbs Hne. eapply malloc_memcpy_payload; eauto.
      * assert (Hres : chain = set_e c e :: next).
        { destruct (alloc && negb (c.(elt.e) =? NULL)); injection Hscan as <- _; done. }
        subst chain. simpl. rewrite Hc. done.
    + destruct (add_scan alloc m next key e size) as [next' m1 | next' m1 |] eqn:Hnext;
        try discriminate.
      injection Hscan as <- <-. simpl. rewrite Hc.
      apply (IH next' eq_refl).
Qed.

End Update.

(** ** Walking the buckets *)

Lemma walk_from_drop (h : hashtable_t) (todo k : nat) :
  walk_from h todo (Z.of_nat k) = concat (take todo (drop k h.(ht.table))).
Proof.
  revert k. induction todo as [| todo IH]; intros k; simpl; [reflexivity |].
  replace (Z.of_nat k + 1) with (Z.of_nat (S k)) by lia.
  rewrite IH. unfold bucket. rewrite Nat2Z.id.
  destruct (h.(ht.table) !! k) as [chain |] eqn:Hk.
  - rewrite (drop_S _ _ _ Hk). reflexivity.
  - apply lookup_ge_None in Hk.
    rewrite !drop_ge by lia. rewrite take_nil. reflexivity.
Qed.

(** On an instance whose bucket array has [size] slots the walk meets the
    chains of the array one after the other. *)
Lemma walk_table (h : hashtable_t) :
  length h.(ht.table) = Z.to_nat h.(ht.size) ->
  walk h = concat h.(ht.table).
Proof.
  intros Hlen. unfold walk. rewrite (walk_from_drop h _ 0), <- Hlen.
  rewrite drop_0, firstn_all. reflexivity.
Qed.


Lemma length_concat_insert {A : Type} (l : list (list A)) (i : nat) (old new : list A) :
  l !! i = Some old ->
  (length (concat (<[i := new]> l)) + length old = length (concat l) + length new)%nat.
Proof.
  revert i. induction l as [| x l IH]; intros i Hi; [done |].
  destruct i as [| i]; simpl in *.
  - injection Hi as ->. rewrite !length_app. lia.
  - rewrite !length_app. specialize (IH i Hi). lia.
Qed.

(** Replacing the chain of one bucket changes the number of entries by
    the difference of the lengths. *)
Lemma entries_set_bucket (h : hashtable_t) (hash : Z) (chain : list hashtable_element_t) :
  length h.(ht.table) = Z.to_nat h.(ht.size) ->
  (Z.to_nat hash < length h.(ht.table))%nat ->
  entries (set_bucket h hash chain)
  = entries h - Z.of_nat (length (bucket h hash)) + Z.of_nat (length chain).
Proof.
  intros Hlen Hrange. unfold entries.
  rewrite !walk_table by (simpl; rewrite ?length_insert; exact Hlen).
  pose proof (length_concat_insert h.(ht.table) (Z.to_nat hash) (bucket h hash) chain
                (lookup_in_range h hash Hrange)) as Hc.
  simpl. lia.
Qed.

Lemma walk_from_same (h h' : hashtable_t) (todo : nat) (hash : Z) :
  h'.(ht.table) = h.(ht.table) ->
  walk_from h' todo hash = walk_from h todo hash.
Proof.
  intros Ht. revert hash. induction todo as [| todo IH]; intros hash; simpl.
  - reflexivity.
  - rewrite IH. unfold bucket. rewrite Ht. reflexivity.
Qed.

Lemma entries_same (h h' : hashtable_t) :
  h'.(ht.table) = h.(ht.table) ->
  h'.(ht.size) = h.(ht.size) ->
  entries h' = entries h.
Proof.
  intros Ht Hs. unfold entries, walk. rewrite Hs. f_equal. f_equal.
  generalize 0. induction (Z.to_nat h.(ht.size)) as [| todo IH]; intros hash; simpl.
  - reflexivity.
  - rewrite IH. unfold bucket. rewrite Ht. reflexivity.
Qed.

(** ** The paths of [hashtable_add] *)

Lemma has_key_scan_true (curr : list hashtable_element_t) (key : string) :
  has_key_scan curr key = true <->
  exists c, c ∈ curr /\ strcmp c.(elt.key) key = 0.
Proof.
  induction curr as [| c next IH]; simpl.
  - split; [discriminate |]. intros (c & Hc & _). inversion Hc.
  - destruct (Z.eqb_spec (strcmp c.(elt.key) key) 0) as [Hc | Hc].
    + split; [| reflexivity]. intros _. exists c. split; [left | exact Hc].
    + rewrite IH. split.
      * intros (c' & Hin & Hc'). exists c'. split; [right; exact Hin | exact Hc'].
      * intros (c' & Hin & Hc'). exists c'. split; [| exact Hc'].
        inversion Hin; subst; [contradiction | assumption].
Qed.

Lemma has_key_scan_false (curr : list hashtable_element_t) (key : string) :
  has_key_scan curr key = false <->
  forall c, c ∈ curr -> strcmp c.(elt.key) key <> 0.
Proof.
  split.
  - intros Hf c Hin Hc.
    assert (Ht : has_key_scan curr key = true) by (apply has_key_scan_true; eauto).
    congruence.
  - intros Hall. destruct (has_key_scan curr key) eqn:Hs; [| reflexivity].
    apply has_key_scan_true in Hs as (c & Hin & Hc). destruct (Hall c Hin Hc).
Qed.

Section AddPaths.
Context `{Host}.

(** [hashtable_add] ends in one of three ways: the key was in its chain,
    and the chain keeps its keys (whether the call returns 0 or -1); the
    key was not and an allocation failed, and the instance and the heap
    are as before the call; the key was not and an element with a copy of
    the key is linked behind its chain, [count] going up by one. *)
Lemma hashtable_add_paths (m : memory) (h : hashtable_t) (key : string) (e size : Z) :
  let hash := compute_hash h.(ht.size) key in
  let curr := bucket h hash in
  let '(r, h', m') := hashtable_add m h key e size in
  (has_key_scan curr key = true /\ (r = 0 \/ r = -1) /\
   exists chain,
     h' = sem_post (set_bucket (sem_wait h) hash chain) /\
     map elt.key chain = map elt.key curr) \/
  (has_key_scan curr key = false /\ r = -1 /\
   h' = sem_post (sem_wait h) /\
   blocks m' = blocks m /\ forall k, live k m' = live k m) \/
  (has_key_scan curr key = false /\ r = 0 /\
   exists p,
     h' = sem_post
            (set_count
               (set_bucket (sem_wait h) hash (curr ++ [{| elt.key := c_str key; elt.e := p |}]))
               (to_size (h.(ht.count) + 1)))).
Proof.
  intros hash curr. unfold hashtable_add.
  change (hashtable_compute_hash (sem_wait h) key) with hash.
  change (bucket (sem_wait h) hash) with curr.
  change (ht.alloc (sem_wait h)) with (ht.alloc h).
  destruct (add_scan h.(ht.alloc) m curr key e size) as [chain m1 | chain m1 |] eqn:Hscan.
  - left. split; [| split; [left; reflexivity |]].
    + destruct (has_key_scan curr key) eqn:Hk; [reflexivity |].
      apply (add_scan_NotFound h.(ht.alloc) m curr key e size) in Hk.
      rewrite Hk in Hscan. discriminate.
    + exists chain. split; [reflexivity |].
      eapply add_scan_others. left. exact Hscan.
  - left. split; [| split; [right; reflexivity |]].
    + destruct (has_key_scan curr key) eqn:Hk; [reflexivity |].
      apply (add_scan_NotFound h.(ht.alloc) m curr key e size) in Hk.
      rewrite Hk in Hscan. discriminate.
    + exists chain. split; [reflexivity |].
      eapply add_scan_others. right. exact Hscan.
  - apply add_scan_NotFound in Hscan.
    destruct (malloc_object Element m) as [granted1 m1] eqn:Hel.
    apply malloc_object_spec in Hel as (Hb1 & _ & Hl1).
    destruct granted1; simpl.
    2: { right. left. repeat split; done. }
    destruct (malloc_object KeyCopy m1) as [granted2 m2] eqn:Hkey.
    apply malloc_object_spec in Hkey as (Hb2 & _ & Hl2).
    destruct granted2; simpl.
    2: { right. left. repeat split; try done; [simpl; congruence |].
         intros k. rewrite free_object_live, Hl2, Hl1. simpl.
         destruct k; simpl; lia. }
    destruct (h.(ht.alloc) && negb (e =? NULL) && negb (size =? 0)).
    + destruct (malloc m2 size) as [p m3] eqn:Hmal.
      unfold malloc in Hmal. apply malloc_block_spec in Hmal as [Hl3 Hmal].
      destruct (Z.eqb_spec p NULL) as [Hp | Hp].
      * right. left. destruct Hmal as [(_ & _ & Hb3) | (_ & Hp' & _)]; [| contradiction].
        repeat split; try done; [simpl; congruence |].
        intros k. rewrite !free_object_live, Hl3, Hl2, Hl1. simpl.
        destruct k; simpl; lia.
      * right. right. repeat split; try done. exists p. rewrite link_tail_app. reflexivity.
    + right. right. repeat split; try done. exists e. rewrite link_tail_app. reflexivity.
Qed.
End AddPaths.

(** ** The shape of reachable instances *)

Section Wellformed.
Context `{Host}.

Lemma table_wf_same (h h' : hashtable_t) :
  h'.(ht.table) = h.(ht.table) ->
  h'.(ht.size) = h.(ht.size) ->
  table_wf h -> table_wf h'.
Proof.
  intros Ht Hs [Hsize Hlen Hchains].
  split; rewrite ?Ht, ?Hs; assumption.
Qed.

Lemma table_wf_bucket (h : hashtable_t) (hash : Z) :
  table_wf h ->
  NoDup (map elt.key (bucket h hash)) /\
  Forall (fun k => c_str k = k /\ compute_hash h.(ht.size) k = Z.of_nat (Z.to_nat hash))
         (map elt.key (bucket h hash)).
Proof.
  intros [_ _ Hchains]. unfold bucket.
  destruct (h.(ht.table) !! Z.to_nat hash) as [chain |] eqn:Hl; simpl.
  - apply (Hchains _ _ Hl).
  - split; constructor.
Qed.

Lemma table_wf_set_bucket (h : hashtable_t) (hash : Z) (chain : list hashtable_element_t) :
  table_wf h ->
  NoDup (map elt.key chain) ->
  Forall (fun k => c_str k = k /\ compute_hash h.(ht.size) k = Z.of_nat (Z.to_nat hash))
         (map elt.key chain) ->
  table_wf (set_bucket h hash chain).
Proof.
  intros [Hsize Hlen Hchains] Hnodup Hall. split; simpl.
  - exact Hsize.
  - rewrite length_insert. exact Hlen.
  - intros i chain' Hi.
    apply list_lookup_insert_Some in Hi as [(<- & <- & _) | (_ & Hi)].
    + split; assumption.
    + apply (Hchains _ _ Hi).
Qed.

Lemma hashtable_create_wf (m : memory) (size : Z) (alloc : bool) (h : hashtable_t) (m' : memory) :
  0 < size < SIZE_MOD ->
  hashtable_create m size alloc = (Some h, m') ->
  table_wf h.
Proof.
  intros Hsize Hcreate. unfold hashtable_create in Hcreate.
  destruct (malloc_object Instance m) as [[] m1]; simpl in Hcreate; [| discriminate].
  destruct (malloc_object BucketArray m1) as [[] m2]; simpl in Hcreate; [| discriminate].
  injection Hcreate as <- <-. split; simpl.
  - exact Hsize.
  - apply length_replicate.
  - intros i chain Hi. apply lookup_replicate in Hi as [-> _].
    split; constructor.
Qed.

Lemma hashtable_add_wf (m : memory) (h : hashtable_t) (key : string) (e size : Z) :
  table_wf h -> table_wf (hashtable_add m h key e size).1.2.
Proof.
  intros Hwf. pose proof (hashtable_add_paths m h key e size) as Hpaths.
  destruct (hashtable_add m h key e size) as [[r h'] m']. simpl in *.
  set (hash := compute_hash h.(ht.size) key) in *.
  destruct (table_wf_bucket h hash Hwf) as [Hnodup Hall].
  destruct Hpaths as [(_ & _ & chain & -> & Hkeys) | [(_ & _ & -> & _) | (Habsent & _ & p & ->)]].
  - apply (table_wf_same (set_bucket h hash chain)); [reflexivity .. |].
    apply table_wf_set_bucket; rewrite ?Hkeys; assumption.
  - apply (table_wf_same h); [reflexivity .. | exact Hwf].
  - apply (table_wf_same
             (set_bucket h hash (bucket h hash ++ [{| elt.key := c_str key; elt.e := p |}])));
      [reflexivity .. |].
    apply table_wf_set_bucket; [exact Hwf | |]; rewrite map_app; simpl.
    + apply NoDup_app. split; [exact Hnodup |]. split; [| apply NoDup_singleton].
      intros k Hk Hk'. apply list_elem_of_singleton in Hk' as ->.
      apply list_elem_of_fmap in Hk as (c & Hck & Hc).
      apply (proj1 (has_key_scan_false _ _) Habsent c Hc).
      apply strcmp_0_iff. rewrite <- Hck. apply c_str_idemp.
    + apply Forall_app. split; [exact Hall |].
      constructor; [| constructor]. split; [apply c_str_idemp |].
      rewrite compute_hash_c_str. fold hash.
      pose proof (compute_hash_range h.(ht.size) key) as Hr.
      destruct Hwf as [Hsize _ _]. fold hash in Hr. lia.
Qed.

(** What the scan of [hashtable_remove] finds: the first element whose key
    is [key], and the chain around it. *)
Lemma remove_scan_split (curr : list hashtable_element_t) (key : string)
      (v : Z) (chain : list hashtable_element_t) :
  remove_scan curr key = Some (v, chain) ->
  exists pre c post,
    curr = pre ++ c :: post /\ chain = pre ++ post /\
    strcmp c.(elt.key) key = 0 /\ v = c.(elt.e) /\
    has_key_scan pre key = false.
Proof.
  revert chain. induction curr as [| c next IH]; intros chain Hscan; simpl in Hscan.
  - discriminate.
  - destruct (Z.eqb_spec (strcmp c.(elt.key) key) 0) as [Hc | Hc].
    + injection Hscan as <- <-. exists [], c, next. done.
    + destruct (remove_scan next key) as [[v' next'] |]; [| discriminate].
      injection Hscan as <- <-.
      destruct (IH next' eq_refl) as (pre & c' & post & -> & -> & Hc' & Hv & Hpre).
      exists (c :: pre), c', post. repeat split; try done.
      simpl. apply Z.eqb_neq in Hc. rewrite Hc. exact Hpre.
Qed.

Lemma hashtable_remove_wf (m : memory) (h : hashtable_t) (key : string) :
  table_wf h -> table_wf (hashtable_remove m h key).1.2.
Proof.
  intros Hwf. unfold hashtable_remove.
  set (hash := hashtable_compute_hash (sem_wait h) key).
  change (bucket (sem_wait h) hash) with (bucket h hash).
  destruct (table_wf_bucket h hash Hwf) as [Hnodup Hall].
  destruct (remove_scan (bucket h hash) key) as [[v chain] |] eqn:Hscan; simpl.
  - apply remove_scan_split in Hscan as (pre & c & post & Hcurr & -> & _).
    rewrite Hcurr in Hnodup, Hall. rewrite map_app in Hnodup, Hall. simpl in Hnodup, Hall.
    apply (table_wf_same (set_bucket h hash (pre ++ post))); [reflexivity .. |].
    apply table_wf_set_bucket; [exact Hwf | |]; rewrite map_app.
    + apply NoDup_app in Hnodup as (Hpre & Hdisj & Hpost).
      apply NoDup_cons in Hpost as [_ Hpost].
      apply NoDup_app. repeat split; try assumption.
      intros k Hk Hk'. apply (Hdisj k Hk). right. exact Hk'.
    + apply Forall_app in Hall as [Hpre Hpost].
      apply Forall_cons in Hpost as [_ Hpost].
      apply Forall_app. split; assumption.
  - apply (table_wf_same h); [reflexivity .. | exact Hwf].
Qed.

(** Every instance a program can hold has the shape [table_wf]: as many
    bucket slots as [size] says, no key twice in a chain, every key in
    the chain of its hash. *)
Lemma reachable_wf (h : hashtable_t) : reachable h -> table_wf h.
Proof.
  induction 1 as [m size alloc h m' Hsize Hcreate
                 | h m key e size r h' m' _ IH Hadd
                 | h m key v h' m' _ IH Hrem
                 | h _ IH | h key _ IH | h key _ IH | h m keys _ IH].
  - eapply hashtable_create_wf; eassumption.
  - pose proof (hashtable_add_wf m h key e size IH) as Hwf.
    rewrite Hadd in Hwf. exact Hwf.
  - pose proof (hashtable_remove_wf m h key IH) as Hwf.
    rewrite Hrem in Hwf. exact Hwf.
  - apply (table_wf_same h); [reflexivity .. | exact IH].
  - apply (table_wf_same h); [reflexivity .. | exact IH].
  - apply (table_wf_same h); [reflexivity .. | exact IH].
  - apply (table_wf_same h); [| | exact IH];
      unfold hashtable_get_keys;
      repeat match goal with
        | |- context [if ?b then _ else _] => destruct b
        | |- context [let (_, _) := ?x in _] => destruct x
        end; reflexivity.
Qed.
End Wellformed.

(** ** [hashtable_remove] of a key that is present *)

Section RemovePresent.
Context `{Host}.


(** [hashtable_add] keeps [count] equal to the number of reachable
    entries (at the width of [size_t]). *)
Lemma hashtable_add_count (m : memory) (h : hashtable_t) (key : string) (e size : Z) :
  table_wf h ->
  h.(ht.count) = to_size (entries h) ->
  let h' := (hashtable_add m h key e size).1.2 in
  h'.(ht.count) = to_size (entries h').
Proof.
  intros Hwf Hcount. pose proof (hashtable_add_paths m h key e size) as Hpaths.
  destruct (hashtable_add m h key e size) as [[r h'] m']. simpl in *.
  set (hash := compute_hash h.(ht.size) key) in *.
  pose proof (wf_length h Hwf) as Hlen.
  assert (Hrange : (Z.to_nat hash < length h.(ht.table))%nat).
  { pose proof (compute_hash_range h.(ht.size) key (proj1 (wf_size h Hwf))).
    fold hash in H0. lia. }
  destruct Hpaths as [(_ & _ & chain & -> & Hkeys) | [(_ & _ & -> & _) | (_ & _ & p & ->)]].
  - rewrite (entries_same (set_bucket h hash chain)) by reflexivity.
    rewrite entries_set_bucket by assumption. simpl.
    apply (f_equal length) in Hkeys. rewrite !length_map in Hkeys.
    rewrite Hcount. f_equal. lia.
  - rewrite (entries_same h) by reflexivity. exact Hcount.
  - rewrite (entries_same
               (set_bucket h hash (bucket h hash ++ [{| elt.key := c_str key; elt.e := p |}])))
      by reflexivity.
    rewrite entries_set_bucket by assumption. simpl.
    rewrite length_app. simpl. rewrite Hcount. unfold to_size.
    rewrite Zplus_mod_idemp_l. f_equal. lia.
Qed.

(** The functions that only read leave the bucket array and [count] as
    they are. *)
Lemma queries_leave_table (m : memory) (h : hashtable_t) (key : string) (keys : Z) :
  let same (h' : hashtable_t) :=
    h'.(ht.table) = h.(ht.table) /\ h'.(ht.count) = h.(ht.count) /\
    h'.(ht.size) = h.(ht.size) /\ h'.(ht.alloc) = h.(ht.alloc) in
  same (hashtable_get_count h).2 /\
  same (hashtable_has_key h key).2 /\
  same (hashtable_lookup h key).2 /\
  same (hashtable_get_keys m h keys).1.2.
Proof.
  repeat split;
    unfold hashtable_get_keys;
    repeat match goal with
      | |- context [if ?b then _ else _] => destruct b
      | |- context [let (_, _) := ?x in _] => destruct x
      end; reflexivity.
Qed.
End RemovePresent.

(** ** [count] after [hashtable_remove] *)

(** C1.  On the instance that holds the one key "a" with value 7 (so
    [hashtable_get_count] returns 1), [hashtable_remove] of "a" returns 7,
    unlinks the entry (no entry is left and [hashtable_lookup] returns
    NULL), frees the element and its key copy, and [hashtable_get_count]
    still returns 1: [count] is not decremented. *)
Theorem hashtable_remove_keeps_count :
  (hashtable_has_key (H := lp64) table_a "a").1 = true /\
  (hashtable_get_count table_a).1 = 1 /\
  let '(e, hashtable', m') := hashtable_remove (H := lp64) heap_a table_a "a" in
  e = 7 /\
  (hashtable_lookup (H := lp64) hashtable' "a").1 = NULL /\
  entries hashtable' = 0 /\
  live Element m' = 0 /\ live KeyCopy m' = 0 /\
  (hashtable_get_count hashtable').1 = 1.
Proof. vm_compute. repeat split; reflexivity. Qed.

(** C2.  The instance made by [hashtable_create (1, false)],
    [hashtable_add (hashtable, "a", 7, 0)] and
    [hashtable_remove (hashtable, "a")] is reachable, its [count] is 1 and
    no entry is reachable in its buckets: [hashtable_remove] breaks the
    equality of [count] and the number of entries. *)
Theorem count_is_not_entries_after_remove :
  hashtable_create empty_heap 1 false = (Some table_created, heap_created) /\
  hashtable_add (H := lp64) heap_created table_created "a" 7 0 = (0, table_a, heap_a) /\
  hashtable_remove (H := lp64) heap_a table_a "a" = (7, table_a_removed, heap_created) /\
  reachable (H := lp64) table_a_removed /\
  table_a_removed.(ht.count) = 1 /\
  entries table_a_removed = 0.
Proof.
  assert (Hcreate : hashtable_create empty_heap 1 false
                    = (Some table_created, heap_created)) by reflexivity.
  assert (Hadd : hashtable_add (H := lp64) heap_created table_created "a" 7 0
                 = (0, table_a, heap_a)) by reflexivity.
  assert (Hrem : hashtable_remove (H := lp64) heap_a table_a "a"
                 = (7, table_a_removed, heap_created)) by reflexivity.
  repeat split; try assumption.
  eapply reach_remove; [| exact Hrem].
  eapply reach_add; [| exact Hadd].
  eapply reach_create; [| exact Hcreate].
  vm_compute. split; reflexivity.
Qed.

(** ** [hashtable_add] when an allocation fails *)

Section AddFailure.
Context `{Host}.

(** The update fails only in a table that copies its values; by then the
    value the entry held is freed and the entry holds NULL. *)
Lemma add_scan_UpdateFailed (alloc : bool) (m : memory) (curr : list hashtable_element_t)
      (key : string) (e size : Z) (chain : list hashtable_element_t) (m' : memory) :
  add_scan alloc m curr key e size = UpdateFailed chain m' ->
  alloc = true /\
  lookup_scan chain key = NULL /\
  (lookup_scan curr key <> NULL -> blocks m' !! lookup_scan curr key = None).
Proof.
  revert chain. induction curr as [| c next IH]; intros chain Hscan; simpl in Hscan.
  - discriminate.
  - simpl lookup_scan.
    destruct (strcmp c.(elt.key) key =? 0) eqn:Hc.
    + destruct alloc; simpl in Hscan.
      2: { discriminate. }
      split; [reflexivity |].
      destruct (negb (e =? NULL) && negb (size =? 0)).
      2: { destruct (negb (c.(elt.e) =? NULL)); discriminate. }
      destruct (Z.eqb_spec c.(elt.e) NULL) as [Hold | Hold]; simpl in Hscan.
      * destruct (malloc m size) as [p m2] eqn:Hmal.
        destruct (Z.eqb_spec p NULL) as [-> | Hp]; [| discriminate].
        injection Hscan as <- <-. simpl. rewrite Hc. split; [reflexivity | done].
      * destruct (malloc (free m c.(elt.e)) size) as [p m2] eqn:Hmal.
        destruct (Z.eqb_spec p NULL) as [-> | Hp]; [| discriminate].
        injection Hscan as <- <-. simpl. rewrite Hc. split; [reflexivity |].
        intros _. unfold malloc in Hmal.
        apply malloc_block_spec in Hmal as [_ [(_ & _ & ->) | (_ & Hp & _)]]; [| done].
        simpl. apply lookup_delete_eq.
    + destruct (add_scan alloc m next key e size) as [next' m1 | next' m1 |] eqn:Hnext;
        try discriminate.
      injection Hscan as <- <-. simpl. rewrite Hc.
      apply (IH next' eq_refl).
Qed.

(** What a failed [hashtable_add] leaves behind.  For a key that was not
    in the table: the instance and the heap of before the call, every
    partial allocation freed.  For a key that was: the entry, its old
    value freed, now holds NULL. *)
Lemma hashtable_add_failure (m : memory) (h : hashtable_t) (key : string) (e size : Z)
      (h' : hashtable_t) (m' : memory) :
  hashtable_add m h key e size = (-1, h', m') ->
  if (hashtable_has_key h key).1
  then h.(ht.alloc) = true /\
       (hashtable_lookup h' key).1 = NULL /\
       h'.(ht.count) = h.(ht.count) /\
       ((hashtable_lookup h key).1 <> NULL ->
        blocks m' !! (hashtable_lookup h key).1 = None)
  else h' = sem_post (sem_wait h) /\
       blocks m' = blocks m /\
       forall k, live k m' = live k m.
Proof.
  intros Hadd. pose proof (hashtable_add_paths m h key e size) as Hpaths.
  rewrite Hadd in Hpaths. simpl in Hpaths.
  set (hash := compute_hash h.(ht.size) key) in *.
  change ((hashtable_has_key h key).1) with (has_key_scan (bucket h hash) key).
  change ((hashtable_lookup h key).1) with (lookup_scan (bucket h hash) key).
  destruct Hpaths as [(Hp & _ & _) | [(Ha & _ & Hh & Hb & Hl) | (_ & Hr & _)]];
    [| rewrite Ha; done | discriminate].
  rewrite Hp.
  pose proof (bucket_in_range h hash (has_key_scan_nonempty _ _ Hp)) as Hrange.
  unfold hashtable_add in Hadd.
  change (hashtable_compute_hash (sem_wait h) key) with hash in Hadd.
  change (bucket (sem_wait h) hash) with (bucket h hash) in Hadd.
  change (ht.alloc (sem_wait h)) with (ht.alloc h) in Hadd.
  destruct (add_scan h.(ht.alloc) m (bucket h hash) key e size)
    as [chain m1 | chain m1 |] eqn:Hscan.
  - discriminate.
  - injection Hadd as <- <-.
    apply add_scan_UpdateFailed in Hscan as (Halloc & Hnull & Hfreed).
    change ((hashtable_lookup (sem_post (set_bucket (sem_wait h) hash chain)) key).1)
      with (lookup_scan (bucket (set_bucket h hash chain) hash) key).
    rewrite bucket_set_bucket_eq by exact Hrange. done.
  - apply add_scan_NotFound in Hscan. congruence.
Qed.
End AddFailure.

(** C3.  In the table that copies its values and holds "a" with a copy of
    the caller's two bytes, a [hashtable_add] of "a" whose allocation of
    the new copy fails returns -1 and does not leave the table as it was:
    the copy the entry held is freed and [hashtable_lookup] of "a", which
    returned that copy, returns NULL. *)
Theorem hashtable_add_failed_update_loses_value :
  hashtable_add (H := lp64) heap_src table_copying "a" 100 2
  = (0, table_copied, heap_copied) /\
  (hashtable_lookup (H := lp64) table_copied "a").1 = 101 /\
  payload heap_copied 101 = Some [Some 1; Some 2] /\
  let '(r, hashtable', m') :=
    hashtable_add (H := lp64) (set_fates heap_copied [Denied]) table_copied "a" 100 2 in
  r = -1 /\
  (hashtable_lookup (H := lp64) hashtable' "a").1 = NULL /\
  payload m' 101 = None /\
  hashtable'.(ht.count) = table_copied.(ht.count).
Proof. vm_compute. repeat split; reflexivity. Qed.

(** ** [hashtable_get_keys] *)


Section GetKeys.
Context `{Host}.

End GetKeys.

(** ** The semaphore *)


Section Lock.
Context `{Host}.


End Lock.

(** ** The order of insertion *)






(** ** Keys bucket by bucket *)


Section ByBucket.
Context `{Host}.

End ByBucket.

(** ** The chains after successful calls of [hashtable_add] *)

Section Added.
Context `{Host}.

Lemma bucket_same (h h' : hashtable_t) (hash : Z) :
  h'.(ht.table) = h.(ht.table) -> bucket h' hash = bucket h hash.
Proof. intros Ht. unfold bucket. rewrite Ht. reflexivity. Qed.

End Added.

(** ** The array [hashtable_get_keys] fills *)

Section KeyArray.
Context `{Host}.

Lemma store_keys_app (ks : list (option string)) (index : nat)
      (chain1 chain2 : list hashtable_element_t) :
  store_keys ks index (chain1 ++ chain2)
  = let (ks', index') := store_keys ks index chain1 in store_keys ks' index' chain2.
Proof.
  revert ks index. induction chain1 as [| c next IH]; intros ks index; simpl.
  - reflexivity.
  - apply IH.
Qed.

(** The two loops of [hashtable_get_keys] store the keys of the walk. *)
Lemma keys_loop_walk (h : hashtable_t) (todo : nat) (hash : Z)
      (ks : list (option string)) (index : nat) :
  keys_loop h todo hash ks index = store_keys ks index (walk_from h todo hash).
Proof.
  revert hash ks index. induction todo as [| todo IH]; intros hash ks index; simpl.
  - reflexivity.
  - rewrite store_keys_app.
    destruct (store_keys ks index (bucket h hash)) as [ks' index'].
    apply IH.
Qed.

(** Storing the keys of a chain that fits overwrites as many slots from
    [index] on, in the order of the chain. *)
Lemma store_keys_spec (chain : list hashtable_element_t) (ks : list (option string))
      (index : nat) :
  (index + length chain <= length ks)%nat ->
  store_keys ks index chain
  = (take index ks ++ map (fun c => Some c.(elt.key)) chain
       ++ drop (index + length chain) ks,
     (index + length chain)%nat).
Proof.
  revert ks index. induction chain as [| c next IH]; intros ks index Hfit; simpl in *.
  - rewrite Nat.add_0_r, take_drop. reflexivity.
  - rewrite IH by (rewrite length_insert; lia).
    f_equal; [| lia].
    rewrite (take_S_r _ _ (Some c.(elt.key)))
      by (apply list_lookup_insert_eq; lia).
    rewrite take_insert_ge by lia.
    rewrite drop_insert_lt by lia.
    rewrite <- app_assoc. simpl.
    replace (index + S (length next))%nat with (S (index + length next)) by lia.
    reflexivity.
Qed.

Lemma store_keys_all (chain : list hashtable_element_t) :
  (store_keys (replicate (length chain) None) 0 chain).1
  = map Some (map elt.key chain).
Proof.
  rewrite store_keys_spec by (rewrite length_replicate; lia). simpl.
  rewrite drop_replicate, Nat.sub_diag, app_nil_r.
  rewrite map_map. reflexivity.
Qed.

(** When the array is granted and the product [count * sizeof (char * )]
    does not wrap, [hashtable_get_keys] returns an array of [count] slots
    filled, from slot 0 on, with the keys met on the walk. *)
Lemma hashtable_get_keys_array (m : memory) (h : hashtable_t) (keys : Z)
      (count keys' : Z) (h' : hashtable_t) (m' : memory) :
  hashtable_get_keys m h keys = (count, keys', h', m') ->
  0 < h.(ht.count) ->
  h.(ht.count) * Z.pos ptr_bytes < SIZE_MOD ->
  keys' <> NULL ->
  count = h.(ht.count) /\
  key_array m' keys'
  = Some (store_keys (replicate (Z.to_nat h.(ht.count)) None) 0 (walk h)).1.
Proof.
  intros Hget Hpos Hfit Hgranted. unfold hashtable_get_keys in Hget. simpl in Hget.
  apply Z.ltb_lt in Hpos as Hpos'. rewrite Hpos' in Hget.
  destruct (malloc_keys m h.(ht.count)) as [p m1] eqn:Hmal.
  unfold malloc_keys, to_size in Hmal.
  rewrite Z.mod_small, Z.div_mul in Hmal by lia.
  apply malloc_block_spec in Hmal as [_ [(_ & -> & _) | (_ & Hp & _ & Hb)]].
  - simpl in Hget. injection Hget as _ <- _ _. contradiction.
  - apply Z.eqb_neq in Hp as Hp'. rewrite Hp' in Hget. simpl in Hget.
    rewrite Hb, lookup_insert_eq in Hget.
    rewrite keys_loop_walk in Hget.
    rewrite (walk_from_same h (sem_wait h)) in Hget by reflexivity.
    change (ht.size (sem_wait h)) with (ht.size h) in Hget.
    fold (walk h) in Hget.
    destruct (store_keys (replicate (Z.to_nat h.(ht.count)) None) 0 (walk h))
      as [ks idx] eqn:Hstore.
    injection Hget as <- <- <- <-. split; [reflexivity |].
    unfold key_array. simpl. rewrite lookup_insert_eq. reflexivity.
Qed.
End KeyArray.

Section KeysAfterAdds.
Context `{Host}.



End KeysAfterAdds.

(** * The theorems at concrete inputs *)


Lemma add_remove_frame_witness :
  c_str "a" <> c_str "b" /\
  (hashtable_lookup (H := lp64)
     (hashtable_add (H := lp64) heap_key3 table_key3 "key1" 7 0).1.2 "key2").1
  = (hashtable_lookup (H := lp64) table_key3 "key2").1 /\
  (hashtable_lookup (H := lp64)
     (hashtable_remove (H := lp64) heap_a table_a "a").1.2 "b").1
  = (hashtable_lookup (H := lp64) table_a "b").1.
Proof.
  assert (Hab : c_str "a" <> c_str "b") by (simpl; discriminate).
  assert (H12 : c_str "key1" <> c_str "key2") by (simpl; discriminate).
  split; [exact Hab |]. split.
  - apply (add_remove_frame (H := lp64) heap_key3 table_key3 "key1" "key2" 7 0 H12).
  - apply (add_remove_frame (H := lp64) heap_a table_a "a" "b" 7 0 Hab).
Defined.

Lemma hashtable_remove_absent_witness :
  (hashtable_has_key (H := lp64) table_key3 "key4").1 = false /\
  (hashtable_remove (H := lp64) heap_key3 table_key3 "key4").1.1 = NULL /\
  (hashtable_remove (H := lp64) heap_key3 table_key3 "key4").2 = heap_key3.
Proof.
  assert (Habsent : (hashtable_has_key (H := lp64) table_key3 "key4").1 = false)
    by reflexivity.
  split; [exact Habsent |].
  pose proof (hashtable_remove_absent (H := lp64) heap_key3 table_key3 "key4" Habsent)
    as Hrem.
  destruct (hashtable_remove (H := lp64) heap_key3 table_key3 "key4") as [[e h'] m'].
  simpl. tauto.
Defined.



(** * Further properties *)

(** ** [hashtable_create] *)

Section Create.
Context `{Host}.

End Create.

(** ** [hashtable_add] of a key that is absent *)

Lemma lookup_scan_snoc (curr : list hashtable_element_t) (key : string) (v : Z) :
  has_key_scan curr key = false ->
  lookup_scan (curr ++ [{| elt.key := c_str key; elt.e := v |}]) key = v /\
  has_key_scan (curr ++ [{| elt.key := c_str key; elt.e := v |}]) key = true.
Proof.
  assert (Hown : (strcmp (c_str key) key =? 0) = true)
    by (apply Z.eqb_eq, strcmp_0_iff, c_str_idemp).
  induction curr as [| c next IH]; simpl; intros Habsent.
  - rewrite Hown. done.
  - destruct (strcmp c.(elt.key) key =? 0); [discriminate | apply IH, Habsent].
Qed.

Lemma memcpy_blocks_ne (m : memory) (dst src n p : Z) :
  p <> dst -> blocks (memcpy m dst src n) !! p = blocks m !! p.
Proof.
  intros Hp. unfold memcpy.
  destruct (blocks m !! dst) as [[d | ?] |];
    [destruct (blocks m !! src) as [[s | ?] |] | |];
    try reflexivity.
  simpl. rewrite lookup_insert_ne by congruence. reflexivity.
Qed.

Lemma memcpy_live (m : memory) (dst src n : Z) (k : kind) :
  live k (memcpy m dst src n) = live k m.
Proof.
  unfold memcpy.
  destruct (blocks m !! dst) as [[d | ?] |];
    [destruct (blocks m !! src) as [[s | ?] |] | |];
    destruct k; reflexivity.
Qed.

Section AddNew.
Context `{Host}.

(** The two ends of [hashtable_add] for a key that is not in its chain,
    with what they do to the heap. *)
Lemma hashtable_add_absent (m : memory) (h : hashtable_t) (key : string) (e size : Z) :
  let hash := compute_hash h.(ht.size) key in
  let curr := bucket h hash in
  has_key_scan curr key = false ->
  let '(r, h', m') := hashtable_add m h key e size in
  (r = -1 /\ h' = sem_post (sem_wait h) /\
   blocks m' = blocks m /\ forall k, live k m' = live k m) \/
  (r = 0 /\
   exists v,
     h' = sem_post
            (set_count
               (set_bucket (sem_wait h) hash (curr ++ [{| elt.key := c_str key; elt.e := v |}]))
               (to_size (h.(ht.count) + 1))) /\
     (forall k, live k m' = if bool_decide (k = Element \/ k = KeyCopy)
                            then live k m + 1 else live k m) /\
     if h.(ht.alloc) && negb (e =? NULL) && negb (size =? 0)
     then v <> NULL /\ blocks m !! v = None /\
          (forall p, p <> v -> blocks m' !! p = blocks m !! p) /\
          (forall bs, payload m e = Some bs ->
                      payload m' v = Some (take (Z.to_nat size) bs))
     else v = e /\ blocks m' = blocks m).
Proof.
  intros hash curr Habsent. unfold hashtable_add.
  change (hashtable_compute_hash (sem_wait h) key) with hash.
  change (bucket (sem_wait h) hash) with curr.
  change (ht.alloc (sem_wait h)) with (ht.alloc h).
  apply (add_scan_NotFound h.(ht.alloc) m curr key e size) in Habsent.
  rewrite Habsent.
  destruct (malloc_object Element m) as [g1 m1] eqn:Hel.
  apply malloc_object_spec in Hel as (Hb1 & _ & Hl1).
  destruct g1; simpl.
  2: { left. repeat split; done. }
  destruct (malloc_object KeyCopy m1) as [g2 m2] eqn:Hkey.
  apply malloc_object_spec in Hkey as (Hb2 & _ & Hl2).
  destruct g2; simpl.
  2: { left. repeat split; try done; [simpl; congruence |].
       intros k. rewrite free_object_live, Hl2, Hl1. simpl.
       destruct k; simpl; lia. }
  assert (Hlive2 : forall k, live k m2 = if bool_decide (k = Element \/ k = KeyCopy)
                                         then live k m + 1 else live k m).
  { intros k. rewrite Hl2, Hl1. destruct k; simpl; lia. }
  destruct (h.(ht.alloc) && negb (e =? NULL) && negb (size =? 0)).
  - destruct (malloc m2 size) as [p m3] eqn:Hmal.
    pose proof Hmal as Hmal'.
    unfold malloc in Hmal. apply malloc_block_spec in Hmal as [Hl3 Hmal].
    destruct (Z.eqb_spec p NULL) as [Hp | Hp].
    + left. destruct Hmal as [(_ & _ & Hb3) | (_ & Hp' & _)]; [| contradiction].
      repeat split; try done; [simpl; congruence |].
      intros k. rewrite !free_object_live, Hl3, Hl2, Hl1. simpl.
      destruct k; simpl; lia.
    + right. split; [reflexivity |]. exists p. rewrite link_tail_app.
      split; [reflexivity |].
      destruct Hmal as [(_ & Hp' & _) | (_ & _ & Hfresh & Hb3)]; [contradiction |].
      split; [intros k; rewrite memcpy_live, Hl3; apply Hlive2 |].
      split; [exact Hp |]. split; [congruence |]. split.
      * intros q Hq. rewrite memcpy_blocks_ne by exact Hq.
        rewrite Hb3, lookup_insert_ne by congruence. congruence.
      * intros bs Hbs. eapply malloc_memcpy_payload; [exact Hmal' | exact Hp |].
        unfold payload in *. rewrite Hb2, Hb1. exact Hbs.
  - right. split; [reflexivity |]. exists e. rewrite link_tail_app.
    split; [reflexivity |]. split; [exact Hlive2 |]. split; [reflexivity | congruence].
Qed.

(** X2.  A [hashtable_add] that returns 0 for a key the table did not hold
    links one new element behind the chain of the key's bucket: the key is
    found afterwards, [hashtable_lookup] returns its value (the pointer [e]
    itself, or, where the table copies, a new payload with the first
    [size] bytes found at [e]), [count] goes up by one and one more entry is
    reachable; one element and one key copy are allocated. *)
Theorem hashtable_add_new_key (m : memory) (hashtable : hashtable_t) (key : string)
        (e size : Z) (hashtable' : hashtable_t) (m' : memory) :
  table_wf hashtable ->
  (hashtable_has_key hashtable key).1 = false ->
  hashtable_add m hashtable key e size = (0, hashtable', m') ->
  let hash := hashtable_compute_hash hashtable key in
  (hashtable_has_key hashtable' key).1 = true /\
  hashtable'.(ht.count) = to_size (hashtable.(ht.count) + 1) /\
  entries hashtable' = entries hashtable + 1 /\
  map elt.key (bucket hashtable' hash) = map elt.key (bucket hashtable hash) ++ [c_str key] /\
  live Element m' = live Element m + 1 /\
  live KeyCopy m' = live KeyCopy m + 1 /\
  let v := (hashtable_lookup hashtable' key).1 in
  if hashtable.(ht.alloc) && negb (e =? NULL) && negb (size =? 0)
  then v <> NULL /\ blocks m !! v = None /\
       forall bs, payload m e = Some bs ->
                  payload m' v = Some (take (Z.to_nat size) bs)
  else v = e /\ blocks m' = blocks m.
Proof.
  intros Hwf Habsent Hadd hash. unfold hashtable_compute_hash in hash.
  change ((hashtable_has_key hashtable key).1)
    with (has_key_scan (bucket hashtable hash) key) in Habsent.
  pose proof (hashtable_add_absent m hashtable key e size Habsent) as Hends.
  rewrite Hadd in Hends.
  destruct Hends as [(Hr & _) | (_ & v & -> & Hlive & Hval)]; [discriminate |].
  fold hash in Hval |- *.
  set (chain := bucket hashtable hash ++ [{| elt.key := c_str key; elt.e := v |}]) in *.
  assert (Hrange : (Z.to_nat hash < length hashtable.(ht.table))%nat).
  { pose proof (compute_hash_range hashtable.(ht.size) key (proj1 (wf_size _ Hwf))) as Hr.
    rewrite (wf_length _ Hwf). unfold hash, hashtable_compute_hash. lia. }
  assert (Hbucket : bucket (set_bucket hashtable hash chain) hash = chain)
    by (apply bucket_set_bucket_eq, Hrange).
  destruct (lookup_scan_snoc (bucket hashtable hash) key v Habsent) as [Hlook Hhas].
  fold chain in Hlook, Hhas.
  split.
  { change (has_key_scan (bucket (set_bucket hashtable hash chain) hash) key = true).
    rewrite Hbucket. exact Hhas. }
  split; [reflexivity |]. split.
  { rewrite (entries_same (set_bucket hashtable hash chain)) by reflexivity.
    rewrite entries_set_bucket by (apply Hwf || exact Hrange).
    unfold chain. rewrite length_app. simpl. lia. }
  split.
  { rewrite (bucket_same (set_bucket hashtable hash chain)) by reflexivity.
    rewrite Hbucket. unfold chain. rewrite map_app. reflexivity. }
  split; [apply (Hlive Element) |]. split; [apply (Hlive KeyCopy) |].
  match goal with
  | |- context [hashtable_lookup ?x key] =>
      change ((hashtable_lookup x key).1)
        with (lookup_scan (bucket (set_bucket hashtable hash chain) hash) key)
  end.
  cbv zeta. rewrite Hbucket, Hlook.
  destruct (hashtable.(ht.alloc) && negb (e =? NULL) && negb (size =? 0)); tauto.
Qed.

(** X3.  A [hashtable_add] that returns -1 for a key the table did not
    hold has changed nothing: the bucket array, [count] and what every
    lookup returns are as before, no addressable block is added or
    changed, and every object the call had allocated is freed again. *)
Theorem hashtable_add_new_key_rollback (m : memory) (hashtable : hashtable_t)
        (key : string) (e size : Z) (hashtable' : hashtable_t) (m' : memory) :
  (hashtable_has_key hashtable key).1 = false ->
  hashtable_add m hashtable key e size = (-1, hashtable', m') ->
  hashtable'.(ht.table) = hashtable.(ht.table) /\
  hashtable'.(ht.count) = hashtable.(ht.count) /\
  hashtable'.(ht.size) = hashtable.(ht.size) /\
  hashtable'.(ht.alloc) = hashtable.(ht.alloc) /\
  (forall k, (hashtable_lookup hashtable' k).1 = (hashtable_lookup hashtable k).1) /\
  (forall k, (hashtable_has_key hashtable' k).1 = (hashtable_has_key hashtable k).1) /\
  blocks m' = blocks m /\
  forall k, live k m' = live k m.
Proof.
  intros Habsent Hadd.
  change ((hashtable_has_key hashtable key).1)
    with (has_key_scan (bucket hashtable (compute_hash hashtable.(ht.size) key)) key)
    in Habsent.
  pose proof (hashtable_add_absent m hashtable key e size Habsent) as Hends.
  rewrite Hadd in Hends.
  destruct Hends as [(_ & -> & Hb & Hl) | (Hr & _)]; [| discriminate].
  repeat split; try reflexivity; assumption.
Qed.
End AddNew.

(** ** Keys are unique, and found where they are *)

Lemma elem_of_concat_lookup {A : Type} (x : A) (ls : list (list A)) :
  x ∈ concat ls <-> exists i l, ls !! i = Some l /\ x ∈ l.
Proof.
  induction ls as [| l0 ls IH]; simpl.
  - split; [intros Hx; inversion Hx | intros (i & l & Hl & _); discriminate].
  - rewrite elem_of_app, IH. split.
    + intros [Hx | (i & l & Hl & Hx)]; [exists O, l0 | exists (S i), l]; done.
    + intros ([| i] & l & Hl & Hx); simpl in Hl.
      * injection Hl as ->. left. exact Hx.
      * right. eauto.
Qed.


(** In a chain of distinct keys the scan for the key of an element finds
    that element. *)
Lemma lookup_scan_own (chain : list hashtable_element_t) (c : hashtable_element_t) :
  NoDup (map elt.key chain) ->
  Forall (fun k => c_str k = k) (map elt.key chain) ->
  c ∈ chain ->
  lookup_scan chain c.(elt.key) = c.(elt.e) /\ has_key_scan chain c.(elt.key) = true.
Proof.
  induction chain as [| c0 next IH]; intros Hnodup Hnormal Hin; [inversion Hin |].
  simpl in *. apply NoDup_cons in Hnodup as [Hnotin Hnodup].
  apply Forall_cons in Hnormal as [Hn0 Hnormal].
  destruct (Z.eqb_spec (strcmp c0.(elt.key) c.(elt.key)) 0) as [Hcmp | Hcmp].
  - apply elem_of_cons in Hin as [-> | Hin]; [done |].
    exfalso. apply Hnotin. apply strcmp_0_iff in Hcmp.
    assert (Hck : c.(elt.key) ∈ map elt.key next) by (apply list_elem_of_fmap; eauto).
    rewrite Forall_forall in Hnormal. rewrite <- Hn0, Hcmp, (Hnormal _ Hck). exact Hck.
  - apply elem_of_cons in Hin as [-> | Hin]; [| apply IH; assumption].
    exfalso. apply Hcmp, strcmp_0_iff. reflexivity.
Qed.

Section Unique.
Context `{Host}.


(** An element met on the walk sits in the bucket of its key's hash. *)
Lemma table_wf_walk_bucket (h : hashtable_t) (c : hashtable_element_t) :
  table_wf h ->
  c ∈ walk h ->
  c ∈ bucket h (compute_hash h.(ht.size) c.(elt.key)) /\ c_str c.(elt.key) = c.(elt.key).
Proof.
  intros Hwf Hc. rewrite (walk_table h (wf_length h Hwf)) in Hc.
  apply elem_of_concat_lookup in Hc as (i & chain & Hi & Hc).
  destruct (wf_chains h Hwf i chain Hi) as [_ Hall]. rewrite Forall_forall in Hall.
  destruct (Hall c.(elt.key)) as [Hn Hhash]; [apply list_elem_of_fmap; eauto |].
  split; [| exact Hn]. rewrite Hhash. unfold bucket. rewrite Nat2Z.id, Hi. exact Hc.
Qed.



End Unique.

(** ** [hashtable_add] in a table that borrows its values *)

Section Borrowed.
Context `{Host}.

Lemma add_scan_borrowed (m : memory) (curr : list hashtable_element_t)
      (key : string) (e size : Z) :
  has_key_scan curr key = true ->
  exists chain,
    add_scan false m curr key e size = Updated chain m /\
    lookup_scan chain key = e.
Proof.
  induction curr as [| c next IH]; simpl; [discriminate |].
  destruct (strcmp c.(elt.key) key =? 0) eqn:Hc; intros Hpresent.
  - exists (set_e c e :: next). split; [reflexivity |]. simpl. rewrite Hc. reflexivity.
  - destruct (IH Hpresent) as (chain & -> & Hl).
    exists (c :: chain). split; [reflexivity |]. simpl. rewrite Hc. exact Hl.
Qed.

(** X6.  In a table that borrows its values ([alloc] false),
    [hashtable_add] on a key that is present cannot fail and asks the
    allocator for nothing: it returns 0, the heap and the allocator are
    exactly as before, [count] and the keys are unchanged, and
    [hashtable_lookup] returns the pointer passed. *)
Theorem hashtable_add_borrowed_update (m : memory) (hashtable : hashtable_t)
        (key : string) (e size : Z) :
  hashtable.(ht.alloc) = false ->
  (hashtable_has_key hashtable key).1 = true ->
  let '(r, hashtable', m') := hashtable_add m hashtable key e size in
  r = 0 /\
  m' = m /\
  (hashtable_lookup hashtable' key).1 = e /\
  hashtable'.(ht.count) = hashtable.(ht.count) /\
  map (map elt.key) hashtable'.(ht.table) = map (map elt.key) hashtable.(ht.table).
Proof.
  intros Hborrow Hpresent.
  set (hash := compute_hash hashtable.(ht.size) key).
  change ((hashtable_has_key hashtable key).1)
    with (has_key_scan (bucket hashtable hash) key) in Hpresent.
  pose proof (bucket_in_range hashtable hash (has_key_scan_nonempty _ _ Hpresent)) as Hrange.
  destruct (add_scan_borrowed m (bucket hashtable hash) key e size Hpresent)
    as (chain & Hscan & Hlook).
  unfold hashtable_add.
  change (hashtable_compute_hash (sem_wait hashtable) key) with hash.
  change (bucket (sem_wait hashtable) hash) with (bucket hashtable hash).
  change (ht.alloc (sem_wait hashtable)) with (ht.alloc hashtable).
  rewrite Hborrow, Hscan.
  split; [reflexivity |]. split; [reflexivity |]. split.
  { change (lookup_scan (bucket (set_bucket hashtable hash chain) hash) key = e).
    rewrite bucket_set_bucket_eq by exact Hrange. exact Hlook. }
  split; [reflexivity |].
  simpl. rewrite list_fmap_insert.
  destruct (add_scan_others _ _ _ _ _ _ _ _ (or_introl Hscan)) as [_ ->].
  apply list_insert_id. rewrite list_lookup_fmap.
  rewrite (lookup_in_range hashtable hash Hrange). reflexivity.
Qed.
End Borrowed.

(** ** [hashtable_remove] of a key that is present *)

Section Unlink.
Context `{Host}.

End Unlink.

(** ** The slots of the array of [hashtable_get_keys] *)

Section Slots.
Context `{Host}.

(** What [hashtable_get_keys] does to the heap: nothing, or one new block
    at the address it returns. *)
Lemma hashtable_get_keys_heap (m : memory) (h : hashtable_t) (keys : Z) :
  let '(count, keys', h', m') := hashtable_get_keys m h keys in
  h' = sem_post (sem_wait h) /\
  count = h.(ht.count) /\
  (forall k, live k m' = live k m) /\
  (blocks m' = blocks m /\ (keys' = keys \/ keys' = NULL) \/
   0 < h.(ht.count) /\ keys' <> NULL /\ blocks m !! keys' = None /\
   is_Some (key_array m' keys') /\
   forall p, p <> keys' -> blocks m' !! p = blocks m !! p).
Proof.
  unfold hashtable_get_keys. simpl.
  destruct (Z.ltb_spec 0 h.(ht.count)) as [Hpos | Hpos].
  2: { split; [reflexivity |]. split; [reflexivity |]. split; [reflexivity |].
       left. split; [reflexivity | left; reflexivity]. }
  destruct (malloc_keys m h.(ht.count)) as [p m1] eqn:Hmal.
  unfold malloc_keys in Hmal.
  apply malloc_block_spec in Hmal as [Hl [(_ & -> & Hb) | (_ & Hp & Hfresh & Hb)]].
  - simpl. split; [reflexivity |]. split; [reflexivity |]. split; [exact Hl |].
    left. split; [exact Hb | right; reflexivity].
  - apply Z.eqb_neq in Hp as Hp'. rewrite Hp'. simpl.
    rewrite Hb, lookup_insert_eq.
    destruct (keys_loop _ _ _ _ _) as [ks idx]. simpl.
    split; [reflexivity |]. split; [reflexivity |]. split; [exact Hl |].
    right. split; [exact Hpos |]. split; [exact Hp |]. split; [exact Hfresh |]. split.
    + unfold key_array. simpl. rewrite lookup_insert_eq. eauto.
    + intros q Hq. simpl. rewrite !lookup_insert_ne by congruence. reflexivity.
Qed.

(** X8.  When [count] is at least the number of entries,
    [hashtable_get_keys] returns an array of [count] slots of which it
    writes the first ones, one per entry in the order of the walk, and
    leaves the others as [malloc] gave them; so after calls of
    [hashtable_remove], which keep [count], the array ends in slots that
    hold no key.  The array is a new block and no other block changes. *)
Theorem hashtable_get_keys_slots (m : memory) (hashtable : hashtable_t) (keys : Z)
        (count keys' : Z) (hashtable' : hashtable_t) (m' : memory) :
  hashtable_get_keys m hashtable keys = (count, keys', hashtable', m') ->
  0 < hashtable.(ht.count) ->
  hashtable.(ht.count) * Z.pos ptr_bytes < SIZE_MOD ->
  entries hashtable <= hashtable.(ht.count) ->
  keys' <> NULL ->
  key_array m' keys'
  = Some (map Some (map elt.key (walk hashtable))
            ++ replicate (Z.to_nat (hashtable.(ht.count) - entries hashtable)) None) /\
  blocks m !! keys' = None /\
  forall p, p <> keys' -> blocks m' !! p = blocks m !! p.
Proof.
  intros Hget Hpos Hfit Hle Hgranted.
  destruct (hashtable_get_keys_array m hashtable keys count keys' hashtable' m'
              Hget Hpos Hfit Hgranted) as [_ Harr].
  pose proof (hashtable_get_keys_heap m hashtable keys) as Hheap.
  rewrite Hget in Hheap.
  destruct Hheap as (_ & _ & _ & [(Hb & _) | (_ & _ & Hfresh & _ & Hothers)]).
  - exfalso. unfold key_array in Harr. rewrite Hb in Harr.
    unfold hashtable_get_keys in Hget. simpl in Hget.
    apply Z.ltb_lt in Hpos. rewrite Hpos in Hget.
    destruct (malloc_keys m hashtable.(ht.count)) as [p m1] eqn:Hmal.
    unfold malloc_keys in Hmal.
    apply malloc_block_spec in Hmal as [_ [(_ & -> & _) | (_ & Hp & Hf & _)]].
    + simpl in Hget. injection Hget as _ <- _ _. contradiction.
    + apply Z.eqb_neq in Hp as Hp'. rewrite Hp' in Hget. simpl in Hget.
      injection Hget as _ <- _ _. rewrite Hf in Harr. discriminate.
  - split; [| split; assumption].
    rewrite Harr. f_equal. unfold entries in *.
    rewrite store_keys_spec by (rewrite length_replicate; lia). simpl.
    rewrite drop_replicate, map_map. f_equal. f_equal. lia.
Qed.
End Slots.

(** ** [hashtable_release] *)

Section Release.
Context `{Host}.

Lemma release_chain_app (alloc : bool) (m : memory) (chain1 chain2 : list hashtable_element_t) :
  release_chain alloc m (chain1 ++ chain2)
  = release_chain alloc (release_chain alloc m chain1) chain2.
Proof.
  revert m. induction chain1 as [| c next IH]; intros m; simpl; [reflexivity |].
  apply IH.
Qed.

Lemma release_loop_walk (h : hashtable_t) (todo : nat) (hash : Z) (m : memory) :
  release_loop h todo hash m = release_chain h.(ht.alloc) m (walk_from h todo hash).
Proof.
  revert hash m. induction todo as [| todo IH]; intros hash m; simpl; [reflexivity |].
  rewrite release_chain_app. apply IH.
Qed.

(** Releasing a chain frees an element and a key copy for each of its
    elements and, where the table copies, the payload of each value that
    is not NULL. *)
Lemma release_chain_spec (alloc : bool) (chain : list hashtable_element_t) (m : memory) :
  (forall k, live k (release_chain alloc m chain)
             = if bool_decide (k = Element \/ k = KeyCopy)
               then live k m - Z.of_nat (length chain) else live k m) /\
  forall p, blocks (release_chain alloc m chain) !! p
            = if alloc && bool_decide (p <> NULL /\ p ∈ map elt.e chain)
              then None else blocks m !! p.
Proof.
  revert m. induction chain as [| c next IH]; intros m.
  - split.
    + intros k. simpl. destruct k; simpl; lia.
    + intros p. simpl. rewrite bool_decide_eq_false_2; [rewrite andb_false_r; done |].
      intros [_ Hp]. inversion Hp.
  - simpl release_chain.
    set (m1 := free_object Element
                 (if alloc && negb (c.(elt.e) =? NULL)
                  then free (free_object KeyCopy m) c.(elt.e)
                  else free_object KeyCopy m)).
    destruct (IH m1) as [IHl IHb]. split.
    + intros k. rewrite IHl. subst m1.
      rewrite free_object_live.
      assert (Hin : forall k', live k' (if alloc && negb (c.(elt.e) =? NULL)
                                        then free (free_object KeyCopy m) c.(elt.e)
                                        else free_object KeyCopy m)
                               = live k' (free_object KeyCopy m)).
      { intros k'. destruct (alloc && negb (c.(elt.e) =? NULL)); [| reflexivity].
        destruct k'; reflexivity. }
      rewrite Hin, free_object_live. simpl length.
      destruct k; simpl; lia.
    + intros p. rewrite IHb. subst m1. simpl map.
      destruct alloc; simpl; [| reflexivity].
      destruct (Z.eqb_spec c.(elt.e) NULL) as [Hnull | Hnull]; simpl.
      * destruct (bool_decide (p <> NULL /\ p ∈ map elt.e next)) eqn:Hd.
        -- apply bool_decide_eq_true in Hd as [Hp Hd].
           rewrite bool_decide_eq_true_2; [reflexivity |]. split; [exact Hp | right; exact Hd].
        -- apply bool_decide_eq_false in Hd.
           rewrite bool_decide_eq_false_2; [reflexivity |].
           intros [Hp Hd']. apply Hd. split; [exact Hp |].
           apply elem_of_cons in Hd' as [-> | Hd']; [congruence | exact Hd'].
      * destruct (bool_decide (p <> NULL /\ p ∈ map elt.e next)) eqn:Hd.
        -- apply bool_decide_eq_true in Hd as [Hp Hd].
           rewrite bool_decide_eq_true_2; [reflexivity |]. split; [exact Hp | right; exact Hd].
        -- apply bool_decide_eq_false in Hd.
           destruct (decide (p = c.(elt.e))) as [-> | Hne].
           ++ rewrite bool_decide_eq_true_2 by (split; [exact Hnull | left]).
              apply lookup_delete_eq.
           ++ rewrite bool_decide_eq_false_2.
              ** rewrite lookup_delete_ne by congruence. reflexivity.
              ** intros [Hp Hd']. apply Hd. split; [exact Hp |].
                 apply elem_of_cons in Hd' as [-> | Hd']; [congruence | exact Hd'].
Qed.

End Release.

(** ** No leak over a session *)



Section Leak.
Context `{Host}.





End Leak.

(** ** A key that was never added *)

Section NeverAdded.
Context `{Host}.



End NeverAdded.

(** ** The semaphore between calls *)

Section Permit.
Context `{Host}.




End Permit.

(** ** Values borrowed, values copied *)

Section Values.
Context `{Host}.

Lemma hashtable_add_borrowed_blocks (m : memory) (h : hashtable_t) (key : string) (e size : Z) :
  h.(ht.alloc) = false ->
  blocks (hashtable_add m h key e size).2 = blocks m.
Proof.
  intros Hborrow.
  set (hash := compute_hash h.(ht.size) key).
  destruct (has_key_scan (bucket h hash) key) eqn:Hkey.
  - destruct (add_scan_borrowed m (bucket h hash) key e size Hkey) as (chain & Hscan & _).
    unfold hashtable_add.
    change (hashtable_compute_hash (sem_wait h) key) with hash.
    change (bucket (sem_wait h) hash) with (bucket h hash).
    change (ht.alloc (sem_wait h)) with (ht.alloc h).
    rewrite Hborrow, Hscan. reflexivity.
  - pose proof (hashtable_add_absent m h key e size Hkey) as Hends.
    destruct (hashtable_add m h key e size) as [[r h'] m'].
    rewrite Hborrow in Hends. simpl in Hends.
    destruct Hends as [(_ & _ & Hb & _) | (_ & v & _ & _ & _ & Hb)]; exact Hb.
Qed.

(** X13.  A table that borrows its values ([alloc] false) never touches
    an addressable block: after [hashtable_add] (whatever it returns),
    [hashtable_remove] and [hashtable_release] every block of the heap is
    what it was, none is copied, written or freed.  [hashtable_remove]
    frees no block in a table that copies its values either. *)
Theorem borrowed_values_untouched (m : memory) (hashtable : hashtable_t)
        (key : string) (e size : Z) :
  blocks (hashtable_remove m hashtable key).2 = blocks m /\
  (hashtable.(ht.alloc) = false ->
   blocks (hashtable_add m hashtable key e size).2 = blocks m /\
   blocks (hashtable_release m (Some hashtable)).2 = blocks m).
Proof.
  split.
  - unfold hashtable_remove. destruct (remove_scan _ key) as [[v chain] |]; reflexivity.
  - intros Hborrow. split; [apply hashtable_add_borrowed_blocks, Hborrow |].
    apply map_eq. intros p.
    assert (Hm : (hashtable_release m (Some hashtable)).2
                 = free_object Instance
                     (free_object BucketArray
                        (release_chain hashtable.(ht.alloc) m (walk hashtable)))).
    { unfold hashtable_release. cbv zeta. cbn [snd].
      rewrite release_loop_walk.
      rewrite (walk_from_same hashtable (sem_wait hashtable)) by reflexivity.
      reflexivity. }
    rewrite Hm. simpl.
    destruct (release_chain_spec hashtable.(ht.alloc) (walk hashtable) m) as [_ Hb].
    rewrite Hb, Hborrow. reflexivity.
Qed.

(** Where the table copies the new value of a key that is present, the
    copy is not the buffer it is made from. *)
Lemma add_scan_Updated_apart (m : memory) (curr : list hashtable_element_t)
      (key : string) (e size : Z) (chain : list hashtable_element_t) (m' : memory) :
  add_scan true m curr key e size = Updated chain m' ->
  negb (e =? NULL) && negb (size =? 0) = true ->
  is_Some (blocks m !! e) ->
  e <> lookup_scan curr key ->
  lookup_scan chain key <> e.
Proof.
  revert chain. induction curr as [| c next IH]; intros chain Hscan Hcopy He Hold;
    simpl in Hscan.
  - discriminate.
  - simpl in Hold. destruct (strcmp c.(elt.key) key =? 0) eqn:Hc.
    + rewrite Hcopy in Hscan.
      set (m1 := if negb (c.(elt.e) =? NULL) then free m c.(elt.e) else m).
      assert (Hm1 : is_Some (blocks m1 !! e)).
      { subst m1. destruct (negb (c.(elt.e) =? NULL)); [| exact He].
        simpl. rewrite lookup_delete_ne by congruence. exact He. }
      assert (Hmal : exists p m2, malloc m1 size = (p, m2) /\
                (if p =? NULL then UpdateFailed (set_e c p :: next) m2
                 else Updated (set_e c p :: next) (memcpy m2 p e size))
                = Updated chain m').
      { subst m1. simpl in Hscan. destruct (negb (c.(elt.e) =? NULL));
          destruct (malloc _ size) as [p m2]; exists p, m2; split; done. }
      destruct Hmal as (p & m2 & Hmal & Hres).
      destruct (Z.eqb_spec p NULL) as [Hp | Hp]; [discriminate |].
      injection Hres as <- _. simpl. rewrite Hc. simpl.
      unfold malloc in Hmal.
      apply malloc_block_spec in Hmal as [_ [(_ & Hp' & _) | (_ & _ & Hfresh & _)]];
        [contradiction |].
      intros ->. rewrite Hfresh in Hm1. destruct Hm1 as [? [=]].
    + destruct (add_scan true m next key e size) as [next' m1 | next' m1 |] eqn:Hnext;
        try discriminate.
      injection Hscan as <- <-. simpl. rewrite Hc.
      apply (IH next' eq_refl Hcopy He Hold).
Qed.

(** X14.  After a [hashtable_add] that returns 0 for a value held in a
    live buffer of the caller, a table that copies its values holds a
    copy apart from the buffer: if the caller then overwrites its buffer,
    the bytes [hashtable_lookup] leads to are still the first [size]
    bytes the buffer had.  A table that borrows holds the buffer itself:
    the bytes [hashtable_lookup] leads to are the new ones. *)
Theorem value_copied_or_aliased (m : memory) (hashtable : hashtable_t) (key : string)
        (e size : Z) (bs bs' : list (option Z)) (hashtable' : hashtable_t) (m' : memory) :
  table_wf hashtable ->
  e <> NULL -> size <> 0 ->
  payload m e = Some bs ->
  e <> (hashtable_lookup hashtable key).1 ->
  hashtable_add m hashtable key e size = (0, hashtable', m') ->
  let v := (hashtable_lookup hashtable' key).1 in
  if hashtable.(ht.alloc)
  then v <> e /\
       payload m' v = Some (take (Z.to_nat size) bs) /\
       payload (store m' e bs') v = Some (take (Z.to_nat size) bs)
  else v = e /\ payload (store m' e bs') v = Some bs'.
Proof.
  intros Hwf He Hsize Hbs Hold Hadd v.
  assert (Hcopy : negb (e =? NULL) && negb (size =? 0) = true).
  { apply andb_true_iff. split; apply negb_true_iff, Z.eqb_neq; assumption. }
  assert (Hlive : is_Some (blocks m !! e)).
  { unfold payload in Hbs. destruct (blocks m !! e); [eauto | discriminate]. }
  assert (Hstore : forall p, payload (store m' e bs') p
                             = if decide (p = e) then Some bs' else payload m' p).
  { intros p. unfold payload, store. simpl.
    destruct (decide (p = e)) as [-> | Hne];
      [rewrite lookup_insert_eq | rewrite lookup_insert_ne by congruence]; reflexivity. }
  set (hash := compute_hash hashtable.(ht.size) key).
  assert (Hrange : (Z.to_nat hash < length hashtable.(ht.table))%nat).
  { pose proof (compute_hash_range hashtable.(ht.size) key (proj1 (wf_size _ Hwf))) as Hr.
    rewrite (wf_length _ Hwf). fold hash in Hr. lia. }
  change ((hashtable_lookup hashtable key).1)
    with (lookup_scan (bucket hashtable hash) key) in Hold.
  destruct (has_key_scan (bucket hashtable hash) key) eqn:Hkey.
  - (* the key was there *)
    unfold hashtable_add in Hadd.
    change (hashtable_compute_hash (sem_wait hashtable) key) with hash in Hadd.
    change (bucket (sem_wait hashtable) hash) with (bucket hashtable hash) in Hadd.
    change (ht.alloc (sem_wait hashtable)) with (ht.alloc hashtable) in Hadd.
    destruct (add_scan hashtable.(ht.alloc) m (bucket hashtable hash) key e size)
      as [chain m1 | chain m1 |] eqn:Hscan.
    + injection Hadd as <- <-.
      assert (Hv : v = lookup_scan chain key).
      { subst v.
        change (lookup_scan (bucket (set_bucket hashtable hash chain) hash) key
                = lookup_scan chain key).
        rewrite bucket_set_bucket_eq by exact Hrange. reflexivity. }
      destruct hashtable.(ht.alloc) eqn:Halloc.
      * pose proof (add_scan_Updated_apart _ _ _ _ _ _ _ Hscan Hcopy Hlive Hold) as Hapart.
        pose proof (add_scan_Updated _ _ _ _ _ _ _ _ Hscan) as [_ Hval].
        simpl in Hval. rewrite Hcopy in Hval. destruct Hval as [_ Hval].
        rewrite Hv. split; [exact Hapart |].
        rewrite Hstore. destruct (decide (lookup_scan chain key = e)); [contradiction |].
        split; apply (Hval bs Hbs Hold).
      * destruct (add_scan_borrowed m (bucket hashtable hash) key e size Hkey)
          as (chain' & Hscan' & Hl).
        rewrite Hscan in Hscan'. injection Hscan' as <- ->.
        rewrite Hv, Hl. split; [reflexivity |].
        rewrite Hstore. destruct (decide (e = e)); [reflexivity | contradiction].
    + discriminate.
    + apply add_scan_NotFound in Hscan. congruence.
  - (* the key was not *)
    pose proof (hashtable_add_absent m hashtable key e size Hkey) as Hends.
    rewrite Hadd in Hends. fold hash in Hends.
    destruct Hends as [(Hr & _) | (_ & w & -> & _ & Hval)]; [discriminate |].
    destruct (lookup_scan_snoc (bucket hashtable hash) key w Hkey) as [Hl _].
    assert (Hv : v = w).
    { subst v.
      match goal with
      | |- context [hashtable_lookup ?x key] =>
          change ((hashtable_lookup x key).1)
            with (lookup_scan
                    (bucket (set_bucket hashtable hash
                               (bucket hashtable hash
                                  ++ [{| elt.key := c_str key; elt.e := w |}])) hash) key)
      end.
      rewrite bucket_set_bucket_eq by exact Hrange. exact Hl. }
    rewrite Hv, Hstore.
    destruct hashtable.(ht.alloc); simpl in Hval; rewrite ?Hcopy in Hval.
    + destruct Hval as (_ & Hfresh & _ & Hpay).
      assert (Hwe : w <> e) by (intros ->; rewrite Hfresh in Hlive; destruct Hlive as [? [=]]).
      destruct (decide (w = e)); [contradiction |].
      split; [exact Hwe |]. split; apply (Hpay bs Hbs).
    + destruct Hval as [-> _]. split; [reflexivity |].
      destruct (decide (e = e)); [reflexivity | contradiction].
Qed.
End Values.

(** ** The example program *)


Section ExampleFacts.
Context `{Host}.

Lemma lookup_same_table (h h' : hashtable_t) (key : string) :
  h'.(ht.table) = h.(ht.table) ->
  h'.(ht.size) = h.(ht.size) ->
  (hashtable_lookup h' key).1 = (hashtable_lookup h key).1.
Proof.
  intros Ht Hs. unfold hashtable_lookup, hashtable_compute_hash. simpl.
  rewrite Hs. change (bucket (sem_wait h') ?j) with (bucket h' j).
  change (bucket (sem_wait h) ?j) with (bucket h j).
  rewrite (bucket_same h h') by exact Ht. reflexivity.
Qed.

Lemma table_wf_walk_lookup (h : hashtable_t) (c : hashtable_element_t) :
  table_wf h -> c ∈ walk h -> (hashtable_lookup h c.(elt.key)).1 = c.(elt.e).
Proof.
  intros Hwf Hc.
  destruct (table_wf_walk_bucket _ _ Hwf Hc) as [Hb _].
  set (hash := compute_hash h.(ht.size) c.(elt.key)) in *.
  destruct (table_wf_bucket h hash Hwf) as [Hnodup Hall].
  destruct (lookup_scan_own (bucket h hash) c Hnodup) as [Hl _];
    [eapply Forall_impl; [exact Hall |]; simpl; tauto | exact Hb |].
  exact Hl.
Qed.

(** Over an array that holds the keys of the elements [pre ++ cs], the
    loop of [main] from the slot of the first of [cs] on prints the lines
    of [cs], when the lookups return the values of these elements and
    each value is NULL or addresses a C string. *)
Lemma print_elements_lines (m : memory) (cs : list hashtable_element_t) :
  forall (h : hashtable_t) (pre : list hashtable_element_t) (rest : list (option string)),
    (forall c, c ∈ cs ->
               (hashtable_lookup h c.(elt.key)).1 = c.(elt.e) /\
               (c.(elt.e) = NULL \/ is_Some (string_at m c.(elt.e)))) ->
    exists h',
      print_elements m h (map Some (map elt.key (pre ++ cs)) ++ rest)
                     (length cs) (length pre)
      = Some (lines_of m cs, h') /\
      h'.(ht.table) = h.(ht.table) /\ h'.(ht.size) = h.(ht.size) /\
      h'.(ht.alloc) = h.(ht.alloc) /\ h'.(ht.count) = h.(ht.count).
Proof.
  induction cs as [| c cs IH]; intros h pre rest Hcs.
  - exists h. simpl. done.
  - simpl length. cbn [print_elements].
    assert (Hslot : (map Some (map elt.key (pre ++ c :: cs)) ++ rest) !! length pre
                    = Some (Some c.(elt.key))).
    { rewrite lookup_app_l by (rewrite !length_map, length_app; simpl; lia).
      rewrite !list_lookup_fmap, lookup_app_r by lia.
      rewrite Nat.sub_diag. reflexivity. }
    rewrite Hslot.
    destruct (Hcs c) as [Hl Hstr]; [left |].
    destruct (hashtable_lookup h c.(elt.key)) as [element h1] eqn:Hlook.
    assert (Hh1 : h1 = sem_post (sem_wait h)).
    { unfold hashtable_lookup in Hlook. injection Hlook as _ <-. reflexivity. }
    simpl in Hl. subst element.
    destruct (IH h1 (pre ++ [c]) rest) as (h' & Hprint & Ht & Hs & Ha & Hc).
    { intros c' Hc'. destruct (Hcs c') as [Hl' Hstr']; [right; exact Hc' |].
      split; [| exact Hstr'].
      rewrite (lookup_same_table h h1) by (rewrite Hh1; reflexivity). exact Hl'. }
    rewrite <- app_assoc in Hprint. simpl in Hprint.
    rewrite length_app in Hprint. simpl in Hprint.
    replace (length pre + 1)%nat with (S (length pre)) in Hprint by lia.
    rewrite Hprint. simpl lines_of.
    exists h'. rewrite Ht, Hs, Ha, Hc, Hh1.
    destruct (Z.eqb_spec c.(elt.e) NULL) as [Hnull | Hnull]; simpl.
    + destruct (string_at m c.(elt.e)); done.
    + destruct Hstr as [Hnull' | [s Hs']]; [contradiction |].
      rewrite Hs'. done.
Qed.




Lemma walk_same (h h' : hashtable_t) :
  h'.(ht.table) = h.(ht.table) -> h'.(ht.size) = h.(ht.size) -> walk h' = walk h.
Proof. intros Ht Hs. unfold walk. rewrite Hs. apply walk_from_same, Ht. Qed.

End ExampleFacts.

Section ExampleRun.
Context `{Host}.

Lemma hashtable_create_heap (m : memory) (size : Z) (alloc : bool) :
  blocks (hashtable_create m size alloc).2 = blocks m /\
  ((hashtable_create m size alloc).1 = None ->
   forall k, live k (hashtable_create m size alloc).2 = live k m).
Proof.
  unfold hashtable_create.
  destruct (malloc_object Instance m) as [g1 m1] eqn:H1.
  apply malloc_object_spec in H1 as (Hb1 & _ & Hl1).
  destruct g1; simpl.
  - destruct (malloc_object BucketArray m1) as [g2 m2] eqn:H2.
    apply malloc_object_spec in H2 as (Hb2 & _ & Hl2).
    destruct g2; simpl; [split; [congruence | discriminate] |].
    split; [congruence |]. intros _ k.
    rewrite free_object_live, Hl2, Hl1. simpl. destruct k; simpl; lia.
  - split; [exact Hb1 |]. intros _ k. apply Hl1.
Qed.


Lemma string_at_blocks (m m' : memory) (p : Z) :
  blocks m' !! p = blocks m !! p -> string_at m' p = string_at m p.
Proof. intros Hp. unfold string_at, payload. rewrite Hp. reflexivity. Qed.

Lemma string_at_live (m : memory) (p : Z) :
  is_Some (string_at m p) -> is_Some (blocks m !! p).
Proof.
  unfold string_at, payload. intros [s Hs].
  destruct (blocks m !! p); [eauto | discriminate].
Qed.
End ExampleRun.

Section ExampleMain.
Context `{Host}.


End ExampleMain.

(** ** When the allocator denies nothing *)

Lemma request_granted (m : memory) :
  Denied ∉ fates m ->
  is_Some (request m).1 /\ Denied ∉ fates (request m).2.
Proof.
  unfold request. intros Hm. destruct (fates m) as [| [| addr] rest] eqn:Hf; simpl.
  - split; [eauto | rewrite Hf; exact Hm].
  - exfalso. apply Hm. left.
  - split; [eauto |]. intros Hin. apply Hm. right. exact Hin.
Qed.

Lemma malloc_object_granted (k : kind) (m : memory) :
  Denied ∉ fates m ->
  (malloc_object k m).1 = true /\ Denied ∉ fates (malloc_object k m).2.
Proof.
  intros Hm. unfold malloc_object.
  destruct (request_granted m Hm) as [[addr Ha] Hf].
  destruct (request m) as [granted m1]. simpl in Ha, Hf. subst granted.
  split; [reflexivity | exact Hf].
Qed.

Lemma malloc_block_granted (m : memory) (init : block) :
  Denied ∉ fates m ->
  (malloc_block m init).1 <> NULL /\ Denied ∉ fates (malloc_block m init).2.
Proof.
  intros Hm.
  destruct (request_granted m Hm) as [Hsome Hf].
  destruct (malloc_block m init) as [p m'] eqn:Hmal.
  destruct (malloc_block_spec _ _ _ _ Hmal) as [_ [(Hnone & _) | (_ & Hp & _)]].
  - rewrite Hnone in Hsome. destruct Hsome as [? [=]].
  - split; [exact Hp |]. unfold malloc_block in Hmal.
    destruct (request m) as [[addr |] m1]; injection Hmal as _ <-; exact Hf.
Qed.

Lemma memcpy_fates (m : memory) (dst src n : Z) : fates (memcpy m dst src n) = fates m.
Proof.
  unfold memcpy. destruct (blocks m !! dst) as [[] |]; [destruct (blocks m !! src) as [[] |] | |];
    reflexivity.
Qed.

Section Granted.
Context `{Host}.

Lemma add_scan_granted (alloc : bool) (m : memory) (curr : list hashtable_element_t)
      (key : string) (e size : Z) :
  Denied ∉ fates m ->
  match add_scan alloc m curr key e size with
  | Updated _ m' => Denied ∉ fates m'
  | UpdateFailed _ _ => False
  | NotFound => True
  end.
Proof.
  intros Hm. induction curr as [| c next IH]; simpl; [exact I |].
  destruct (strcmp c.(elt.key) key =? 0).
  - destruct (alloc && negb (c.(elt.e) =? NULL)); cbv beta iota zeta;
      (destruct (alloc && negb (e =? NULL) && negb (size =? 0)); [| exact Hm]).
    + destruct (malloc_block_granted (free m c.(elt.e))
                  (Bytes (replicate (Z.to_nat size) None)) Hm) as [Hp Hf].
      unfold malloc.
      destruct (malloc_block (free m c.(elt.e)) _) as [p m1]. simpl in Hp, Hf.
      apply Z.eqb_neq in Hp. rewrite Hp. rewrite memcpy_fates. exact Hf.
    + destruct (malloc_block_granted m (Bytes (replicate (Z.to_nat size) None)) Hm)
        as [Hp Hf].
      unfold malloc.
      destruct (malloc_block m _) as [p m1]. simpl in Hp, Hf.
      apply Z.eqb_neq in Hp. rewrite Hp. rewrite memcpy_fates. exact Hf.
  - destruct (add_scan alloc m next key e size); assumption.
Qed.

Lemma hashtable_create_granted (m : memory) (size : Z) (alloc : bool) :
  Denied ∉ fates m ->
  is_Some (hashtable_create m size alloc).1 /\
  Denied ∉ fates (hashtable_create m size alloc).2.
Proof.
  intros Hm. unfold hashtable_create.
  destruct (malloc_object_granted Instance m Hm) as [Hg1 Hf1].
  destruct (malloc_object Instance m) as [g1 m1]. simpl in Hg1, Hf1. subst g1.
  destruct (malloc_object_granted BucketArray m1 Hf1) as [Hg2 Hf2].
  destruct (malloc_object BucketArray m1) as [g2 m2]. simpl in Hg2, Hf2. subst g2.
  simpl. split; [eauto | exact Hf2].
Qed.

Lemma hashtable_add_granted (m : memory) (h : hashtable_t) (key : string) (e size : Z) :
  Denied ∉ fates m ->
  (hashtable_add m h key e size).1.1 = 0 /\
  Denied ∉ fates (hashtable_add m h key e size).2.
Proof.
  intros Hm. unfold hashtable_add.
  pose proof (add_scan_granted (ht.alloc (sem_wait h)) m
                (bucket (sem_wait h) (hashtable_compute_hash (sem_wait h) key))
                key e size Hm) as Hscan.
  destruct (add_scan _ m _ key e size) as [chain m1 | chain m1 |];
    [split; [reflexivity | exact Hscan] | contradiction |].
  destruct (malloc_object_granted Element m Hm) as [Hg1 Hf1].
  destruct (malloc_object Element m) as [g1 m1]. simpl in Hg1, Hf1. subst g1.
  destruct (malloc_object_granted KeyCopy m1 Hf1) as [Hg2 Hf2].
  destruct (malloc_object KeyCopy m1) as [g2 m2]. simpl in Hg2, Hf2. subst g2.
  cbn [negb]. cbv beta iota zeta.
  destruct (ht.alloc (sem_wait h) && negb (e =? NULL) && negb (size =? 0));
    [| split; [reflexivity | exact Hf2]].
  destruct (malloc_block_granted m2 (Bytes (replicate (Z.to_nat size) None)) Hf2)
    as [Hp Hf].
  unfold malloc. destruct (malloc_block m2 _) as [p m3]. simpl in Hp, Hf.
  apply Z.eqb_neq in Hp. rewrite Hp.
  split; [reflexivity |]. simpl. rewrite memcpy_fates. exact Hf.
Qed.

Lemma hashtable_get_keys_granted (m : memory) (h : hashtable_t) (keys : Z) :
  Denied ∉ fates m ->
  (0 < h.(ht.count) -> (hashtable_get_keys m h keys).1.1.2 <> NULL) /\
  Denied ∉ fates (hashtable_get_keys m h keys).2.
Proof.
  intros Hm. unfold hashtable_get_keys. simpl.
  destruct (Z.ltb_spec 0 h.(ht.count)) as [Hpos | Hpos]; [| split; [lia | exact Hm]].
  unfold malloc_keys.
  destruct (malloc_block_granted m
              (KeyArray (replicate (Z.to_nat (to_size (h.(ht.count) * Z.pos ptr_bytes)
                                              / Z.pos ptr_bytes)) None)) Hm) as [Hp Hf].
  destruct (malloc_block m _) as [p m1]. simpl in Hp, Hf.
  apply Z.eqb_neq in Hp as Hp'. rewrite Hp'. simpl.
  split; [intros _; exact Hp |].
  destruct (blocks m1 !! p) as [[| ks] |]; try exact Hf.
  destruct (keys_loop _ _ _ ks _). exact Hf.
Qed.

Lemma hashtable_remove_fates (m : memory) (h : hashtable_t) (key : string) :
  fates (hashtable_remove m h key).2 = fates m.
Proof.
  unfold hashtable_remove.
  destruct (remove_scan _ _) as [[v chain] |]; reflexivity.
Qed.

(** X16.  A call fails only when the allocator denies a request: as long
    as it denies none, [hashtable_create] returns an instance,
    [hashtable_add] returns 0 - for a new key and for a key to update,
    whether the table copies or borrows - and [hashtable_get_keys] hands
    out an array whenever [count] is positive; and no call leaves a
    denial pending. *)
Theorem calls_succeed_when_granted (m : memory) :
  Denied ∉ fates m ->
  (forall size alloc,
     is_Some (hashtable_create m size alloc).1 /\
     Denied ∉ fates (hashtable_create m size alloc).2) /\
  (forall hashtable key e size,
     (hashtable_add m hashtable key e size).1.1 = 0 /\
     Denied ∉ fates (hashtable_add m hashtable key e size).2) /\
  (forall hashtable key,
     Denied ∉ fates (hashtable_remove m hashtable key).2) /\
  (forall hashtable keys,
     (0 < hashtable.(ht.count) ->
      (hashtable_get_keys m hashtable keys).1.1.2 <> NULL) /\
     Denied ∉ fates (hashtable_get_keys m hashtable keys).2).
Proof.
  intros Hm.
  split; [intros; apply hashtable_create_granted, Hm |].
  split; [intros; apply hashtable_add_granted, Hm |].
  split; [intros; rewrite hashtable_remove_fates; exact Hm |].
  intros; apply hashtable_get_keys_granted, Hm.
Qed.
End Granted.

(** ** The bucket index when the number of buckets divides the modulus *)

Section Divisor.
Context `{Host}.

Lemma djb2_fold_mod (d : Z) (cs : list Z) (hash : Z) :
  (d | ULONG_MOD) ->
  fold_left (fun hash c => (hash * 33 + c) mod ULONG_MOD) cs hash mod d
  = fold_left (fun hash c => (hash * 33 + c) mod d) cs (hash mod d).
Proof.
  intros Hdiv. revert hash. induction cs as [| c cs IH]; intros hash; simpl.
  - reflexivity.
  - rewrite IH. f_equal.
    rewrite (Z.mod_mod_divide _ ULONG_MOD d) by exact Hdiv.
    rewrite (Zplus_mod (hash * 33)), (Zmult_mod hash 33).
    rewrite (Zplus_mod (hash mod d * 33)), (Zmult_mod (hash mod d) 33).
    rewrite Zmod_mod. reflexivity.
Qed.

(** X17.  For a number of buckets that divides the modulus of
    [unsigned long] - a power of two up to its width - the wrap of the
    hash does not show in the bucket index: [hashtable_compute_hash]
    returns the djb2 recurrence taken modulo the number of buckets, the
    same on every host that reads the chars alike. *)
Theorem hashtable_compute_hash_divisor (hashtable : hashtable_t) (key : string) :
  0 < hashtable.(ht.size) ->
  (hashtable.(ht.size) | ULONG_MOD) ->
  hashtable_compute_hash hashtable key
  = fold_left (fun hash c => (hash * 33 + c) mod hashtable.(ht.size))
              (map char_to_int (list_ascii_of_string (c_str key)))
              (5381 mod hashtable.(ht.size)).
Proof.
  intros Hpos Hdiv. unfold hashtable_compute_hash, compute_hash.
  rewrite djb2_loop_spec. apply djb2_fold_mod, Hdiv.
Qed.

Lemma compute_hash_64 (key : string) :
  (64 | ULONG_MOD) ->
  compute_hash 64 key
  = fold_left (fun hash c => (hash * 33 + c) mod 64)
              (map char_to_int (list_ascii_of_string (c_str key))) 5.
Proof.
  intros Hdiv. unfold compute_hash.
  rewrite djb2_loop_spec. apply (djb2_fold_mod 64), Hdiv.
Qed.

(** The buckets of the three keys of the example program. *)
Lemma compute_hash_keys :
  (64 | ULONG_MOD) ->
  compute_hash 64 "key1" = 63 /\ compute_hash 64 "key2" = 0 /\ compute_hash 64 "key3" = 1.
Proof.
  intros Hdiv. rewrite !compute_hash_64 by exact Hdiv.
  unfold char_to_int. destruct char_signed; vm_compute; auto.
Qed.
End Divisor.

Section ExamplePrints.
Context `{Host}.

(** [hashtable_add] of a key that its bucket does not hold, to a table
    that borrows, when the allocator denies nothing: the new element goes
    to the end of the chain. *)
Lemma add_new_borrowed (m : memory) (h : hashtable_t) (key : string) (e size : Z)
      (hash : Z) (chain : list hashtable_element_t)
      (r : Z) (h' : hashtable_t) (m' : memory) :
  Denied ∉ fates m ->
  h.(ht.alloc) = false ->
  compute_hash h.(ht.size) key = hash ->
  h.(ht.table) !! Z.to_nat hash = Some chain ->
  has_key_scan chain key = false ->
  hashtable_add m h key e size = (r, h', m') ->
  h'.(ht.table)
  = <[Z.to_nat hash := chain ++ [{| elt.key := c_str key; elt.e := e |}]]> h.(ht.table) /\
  h'.(ht.size) = h.(ht.size) /\
  h'.(ht.count) = to_size (h.(ht.count) + 1) /\
  h'.(ht.alloc) = false /\
  (Denied ∉ fates m') /\
  blocks m' = blocks m.
Proof.
  intros Hm Hborrow Hhash Hchain Habsent Hadd.
  assert (Hbucket : bucket h hash = chain) by (unfold bucket; rewrite Hchain; reflexivity).
  pose proof (hashtable_add_absent m h key e size) as Hends.
  cbv zeta in Hends. rewrite Hhash, Hbucket in Hends. specialize (Hends Habsent).
  destruct (hashtable_add_granted m h key e size Hm) as [Hr Hf].
  rewrite Hadd in Hends, Hr, Hf. simpl in Hr, Hf. rewrite Hborrow in Hends. simpl in Hends.
  destruct Hends as [(Hfail & _) | (_ & v & -> & _ & -> & Hb)]; [lia |].
  simpl. done.
Qed.

(** X18.  When the allocator denies nothing, on a host whose
    [unsigned long] modulus is a multiple of 64, the example program
    exits with 0 after printing its three entries in the order of their
    buckets - "key2" (bucket 0), "key3" (bucket 1), "key1" (bucket 63) -
    and not in the order in which it added them. *)
Theorem main_prints (element1 element2 element3 : Z) (s1 s2 s3 : string) (m : memory) :
  64 < SIZE_MOD ->
  3 * Z.pos ptr_bytes < SIZE_MOD ->
  (64 | ULONG_MOD) ->
  Denied ∉ fates m ->
  element1 <> NULL -> element2 <> NULL -> element3 <> NULL ->
  string_at m element1 = Some s1 ->
  string_at m element2 = Some s2 ->
  string_at m element3 = Some s3 ->
  exists m',
    main element1 element2 element3 m
    = Some (0, [printed_line "key2" s2; printed_line "key3" s3; printed_line "key1" s1], m').
Proof.
  intros Hsize Hfit Hdiv Hm Hn1 Hn2 Hn3 Hs1 Hs2 Hs3. unfold main.
  destruct (compute_hash_keys Hdiv) as (Hk1 & Hk2 & Hk3).
  destruct (hashtable_create_granted m 64 false Hm) as [[h0 Hsome] Hf0].
  destruct (hashtable_create_heap m 64 false) as [Hb0 _].
  destruct (hashtable_create m 64 false) as [o0 m0] eqn:Hcreate.
  cbn [fst snd] in Hsome, Hf0, Hb0. subst o0.
  assert (Hwf0 : table_wf h0) by (apply (hashtable_create_wf m 64 false h0 m0); [lia | exact Hcreate]).
  assert (Hh0 : h0.(ht.table) = replicate 64 [] /\ h0.(ht.size) = 64 /\
                h0.(ht.count) = 0 /\ h0.(ht.alloc) = false).
  { unfold hashtable_create in Hcreate.
    destruct (malloc_object Instance m) as [[] ?]; simpl in Hcreate; [| discriminate].
    destruct (malloc_object BucketArray _) as [[] ?]; simpl in Hcreate; [| discriminate].
    injection Hcreate as <- _. done. }
  destruct Hh0 as (Ht0 & Hz0 & Hc0 & Ha0).
  destruct (hashtable_add m0 h0 "key1" element1 (Z.pos ptr_bytes)) as [[r1 h1] m1] eqn:Hadd1.
  pose proof (hashtable_add_wf m0 h0 "key1" element1 (Z.pos ptr_bytes) Hwf0) as Hwf1.
  rewrite Hadd1 in Hwf1. cbn [fst snd] in Hwf1.
  destruct (add_new_borrowed _ _ _ _ _ 63 [] _ _ _ Hf0 Ha0
              ltac:(rewrite Hz0; exact Hk1) ltac:(rewrite Ht0; reflexivity) eq_refl Hadd1)
    as (Ht1 & Hz1 & Hc1 & Ha1 & Hf1 & Hb1).
  destruct (hashtable_add m1 h1 "key2" element2 (Z.pos ptr_bytes)) as [[r2 h2] m2] eqn:Hadd2.
  pose proof (hashtable_add_wf m1 h1 "key2" element2 (Z.pos ptr_bytes) Hwf1) as Hwf2.
  rewrite Hadd2 in Hwf2. cbn [fst snd] in Hwf2.
  destruct (add_new_borrowed _ _ _ _ _ 0 [] _ _ _ Hf1 Ha1
              ltac:(rewrite Hz1, Hz0; exact Hk2) ltac:(rewrite Ht1, Ht0; reflexivity)
              eq_refl Hadd2)
    as (Ht2 & Hz2 & Hc2 & Ha2 & Hf2 & Hb2).
  destruct (hashtable_add m2 h2 "key3" element3 (Z.pos ptr_bytes)) as [[r3 h3] m3] eqn:Hadd3.
  pose proof (hashtable_add_wf m2 h2 "key3" element3 (Z.pos ptr_bytes) Hwf2) as Hwf3.
  rewrite Hadd3 in Hwf3. cbn [fst snd] in Hwf3.
  destruct (add_new_borrowed _ _ _ _ _ 1 [] _ _ _ Hf2 Ha2
              ltac:(rewrite Hz2, Hz1, Hz0; exact Hk3)
              ltac:(rewrite Ht2, Ht1, Ht0; reflexivity) eq_refl Hadd3)
    as (Ht3 & Hz3 & Hc3 & Ha3 & Hf3 & Hb3).
  clear Hadd1 Hadd2 Hadd3 Hcreate.
  assert (Hcount : h3.(ht.count) = 3).
  { rewrite Hc3, Hc2, Hc1, Hc0. unfold to_size.
    rewrite (Z.mod_small (0 + 1)) by lia. rewrite (Z.mod_small (0 + 1 + 1)) by lia.
    apply Z.mod_small. lia. }
  assert (Hwalk : walk h3 = [{| elt.key := "key2"; elt.e := element2 |};
                             {| elt.key := "key3"; elt.e := element3 |};
                             {| elt.key := "key1"; elt.e := element1 |}]).
  { rewrite (walk_table h3 (wf_length h3 Hwf3)), Ht3, Ht2, Ht1, Ht0. reflexivity. }
  assert (Hblocks : blocks m3 = blocks m) by congruence.
  pose proof (hashtable_get_keys_heap m3 h3 NULL) as Hheap.
  destruct (hashtable_get_keys_granted m3 h3 NULL Hf3) as [Hgranted _].
  destruct (hashtable_get_keys m3 h3 NULL) as [[[count keys'] h4] m4] eqn:Hget.
  cbn [fst snd] in Hgranted. specialize (Hgranted ltac:(lia)).
  destruct Hheap as (Hh4 & Hcnt & _ & [(_ & Hnull) | (Hpos & _ & Hfresh & _ & Hothers)]);
    [exfalso; unfold NULL in *; tauto |].
  assert (Hprod : h3.(ht.count) * Z.pos ptr_bytes < SIZE_MOD) by (rewrite Hcount; exact Hfit).
  destruct (hashtable_get_keys_array _ _ _ _ _ _ _ Hget Hpos Hprod Hgranted) as [_ Harray].
  rewrite Hcount in Harray. change (Z.to_nat 3) with 3%nat in Harray.
  assert (Hlen : length (walk h3) = 3%nat) by (rewrite Hwalk; reflexivity).
  rewrite <- Hlen, store_keys_all in Harray.
  apply Z.eqb_neq in Hgranted as Hne. rewrite Hne. cbn [negb]. cbv beta iota zeta.
  rewrite Harray.
  assert (Htodo : Z.to_nat count = length (walk h3)) by (rewrite Hcnt, Hcount, Hlen; reflexivity).
  rewrite Htodo.
  assert (Hwf4 : table_wf h4)
    by (rewrite Hh4; apply (table_wf_same h3); [reflexivity .. | exact Hwf3]).
  assert (Hwalk4 : walk h4 = walk h3) by (rewrite Hh4; apply walk_same; reflexivity).
  assert (Hstr : forall p, is_Some (string_at m p) -> string_at m4 p = string_at m p).
  { intros p Hp. apply string_at_blocks. rewrite Hothers, Hblocks; [reflexivity |].
    intros ->. destruct (string_at_live _ _ Hp) as [b Hb].
    rewrite <- Hblocks, Hfresh in Hb. discriminate. }
  destruct (print_elements_lines m4 (walk h3) h4 [] []) as (h5 & Hprint & _).
  { intros c Hc. split.
    - apply table_wf_walk_lookup; [exact Hwf4 | rewrite Hwalk4; exact Hc].
    - right. rewrite Hwalk in Hc.
      repeat (apply elem_of_cons in Hc as [-> | Hc];
              [simpl; rewrite Hstr; rewrite ?Hs1, ?Hs2, ?Hs3; eauto |]).
      inversion Hc. }
  simpl in Hprint. rewrite app_nil_r in Hprint. rewrite Hprint.
  rewrite Hwalk. simpl lines_of.
  rewrite !Hstr by (rewrite ?Hs1, ?Hs2, ?Hs3; eauto). rewrite Hs1, Hs2, Hs3.
  apply Z.eqb_neq in Hn1, Hn2, Hn3. rewrite Hn1, Hn2, Hn3.
  destruct (hashtable_release (free m4 keys') (Some h5)) as [s6 m6].
  exists m6. reflexivity.
Qed.
End ExamplePrints.

(** ** [hashtable_get_count] and [hashtable_add] *)

Section Count.
Context `{Host}.

(** X19.  [hashtable_add] keeps [count] in step with the entries: on a
    table whose count [hashtable_get_count] reports as its number of
    entries (in [size_t]), it still does after the call, whatever the
    call returned.  The count moves, by one, only when a key that was
    not there is added: an update and a failed call leave it alone. *)
Theorem hashtable_get_count_after_add (m : memory) (hashtable : hashtable_t)
        (key : string) (e size : Z) :
  table_wf hashtable ->
  (hashtable_get_count hashtable).1 = to_size (entries hashtable) ->
  let r := (hashtable_add m hashtable key e size).1.1 in
  let hashtable' := (hashtable_add m hashtable key e size).1.2 in
  (hashtable_get_count hashtable').1 = to_size (entries hashtable') /\
  (hashtable_get_count hashtable').1
  = if (hashtable_has_key hashtable key).1 || negb (r =? 0)
    then (hashtable_get_count hashtable).1
    else to_size ((hashtable_get_count hashtable).1 + 1).
Proof.
  intros Hwf Hcount r hashtable'. split.
  - apply (hashtable_add_count m hashtable key e size Hwf Hcount).
  - subst r hashtable'.
    change ((hashtable_has_key hashtable key).1)
      with (has_key_scan (bucket hashtable (compute_hash hashtable.(ht.size) key)) key).
    pose proof (hashtable_add_paths m hashtable key e size) as Hpaths.
    destruct (hashtable_add m hashtable key e size) as [[r h'] m']. simpl in *.
    destruct Hpaths as [(-> & _ & chain & -> & _) | [(-> & -> & -> & _) | (-> & -> & p & ->)]];
      reflexivity.
Qed.
End Count.

(** ** The further properties at concrete inputs *)

Lemma table_a_reachable : reachable (H := lp64) table_a.
Proof.
  apply (reach_add (H := lp64) table_created heap_created "a" 7 0 0 table_a heap_a);
    [| reflexivity].
  apply (reach_create (H := lp64) empty_heap 1 false table_created heap_created);
    [| reflexivity].
  vm_compute. split; reflexivity.
Defined.

Lemma hashtable_add_new_key_witness :
  table_wf (H := lp64) table_a /\
  (hashtable_has_key (H := lp64) table_a "b").1 = false /\
  (hashtable_add (H := lp64) heap_a table_a "b" 8 0).1.1 = 0 /\
  let '(_, hashtable', _) := hashtable_add (H := lp64) heap_a table_a "b" 8 0 in
  (hashtable_lookup (H := lp64) hashtable' "b").1 = 8 /\
  hashtable'.(ht.count) = 2.
Proof.
  assert (Hwf : table_wf (H := lp64) table_a) by (apply reachable_wf, table_a_reachable).
  assert (Habsent : (hashtable_has_key (H := lp64) table_a "b").1 = false) by reflexivity.
  split; [exact Hwf |]. split; [exact Habsent |]. split; [reflexivity |].
  pose proof (hashtable_add_new_key (H := lp64) heap_a table_a "b" 8 0) as Hadd.
  destruct (hashtable_add (H := lp64) heap_a table_a "b" 8 0) as [[r h'] m'] eqn:Hrun.
  assert (Hr : r = 0) by (vm_compute in Hrun; congruence).
  subst r. destruct (Hadd h' m' Hwf Habsent eq_refl) as (_ & Hcount & _ & _ & _ & _ & Hval).
  split; [apply Hval | exact Hcount].
Defined.

Lemma hashtable_add_new_key_rollback_witness :
  (hashtable_has_key (H := lp64) table_a "b").1 = false /\
  (hashtable_add (H := lp64) (set_fates heap_a [Denied]) table_a "b" 8 0).1.1 = -1 /\
  let '(_, hashtable', m') :=
    hashtable_add (H := lp64) (set_fates heap_a [Denied]) table_a "b" 8 0 in
  hashtable'.(ht.table) = table_a.(ht.table) /\ live Element m' = 1.
Proof.
  assert (Habsent : (hashtable_has_key (H := lp64) table_a "b").1 = false) by reflexivity.
  split; [exact Habsent |]. split; [reflexivity |].
  pose proof (hashtable_add_new_key_rollback (H := lp64)
                (set_fates heap_a [Denied]) table_a "b" 8 0) as Hadd.
  destruct (hashtable_add (H := lp64) (set_fates heap_a [Denied]) table_a "b" 8 0)
    as [[r h'] m'] eqn:Hrun.
  assert (Hr : r = -1) by (vm_compute in Hrun; congruence).
  subst r. destruct (Hadd h' m' Habsent eq_refl) as (Ht & _ & _ & _ & _ & _ & _ & Hl).
  split; [exact Ht | apply (Hl Element)].
Defined.



Lemma hashtable_add_borrowed_update_witness :
  table_a.(ht.alloc) = false /\
  (hashtable_has_key (H := lp64) table_a "a").1 = true /\
  (hashtable_add (H := lp64) (set_fates heap_a [Denied]) table_a "a" 9 4).1.1 = 0 /\
  (hashtable_add (H := lp64) (set_fates heap_a [Denied]) table_a "a" 9 4).2
  = set_fates heap_a [Denied].
Proof.
  assert (Hpresent : (hashtable_has_key (H := lp64) table_a "a").1 = true) by reflexivity.
  split; [reflexivity |]. split; [exact Hpresent |].
  pose proof (hashtable_add_borrowed_update (H := lp64)
                (set_fates heap_a [Denied]) table_a "a" 9 4 eq_refl Hpresent) as Hadd.
  destruct (hashtable_add (H := lp64) (set_fates heap_a [Denied]) table_a "a" 9 4)
    as [[r h'] m']. simpl. tauto.
Defined.


Lemma hashtable_get_keys_slots_witness :
  0 < table_a_removed.(ht.count) /\
  entries table_a_removed <= table_a_removed.(ht.count) /\
  let '(_, keys', _, m') :=
    hashtable_get_keys (H := lp64) heap_created table_a_removed NULL in
  keys' <> NULL /\ key_array m' keys' = Some [None].
Proof.
  assert (Hpos : 0 < table_a_removed.(ht.count)) by (simpl; lia).
  assert (Hle : entries table_a_removed <= table_a_removed.(ht.count))
    by (vm_compute; discriminate).
  split; [exact Hpos |]. split; [exact Hle |].
  pose proof (hashtable_get_keys_slots (H := lp64) heap_created table_a_removed NULL) as Hk.
  destruct (hashtable_get_keys (H := lp64) heap_created table_a_removed NULL)
    as [[[count keys'] h'] m'] eqn:Hrun.
  assert (Hgranted : keys' <> NULL).
  { vm_compute in Hrun. injection Hrun as _ <- _ _. discriminate. }
  split; [exact Hgranted |].
  destruct (Hk count keys' h' m' eq_refl Hpos) as [Harr _];
    [vm_compute; reflexivity | exact Hle | exact Hgranted |].
  exact Harr.
Defined.




Lemma table_copying_wf : table_wf (H := lp64) table_copying.
Proof.
  apply (hashtable_create_wf (H := lp64) heap_buffer 1 true table_copying heap_src);
    [| reflexivity].
  vm_compute. split; reflexivity.
Defined.

Lemma borrowed_values_untouched_witness :
  table_a.(ht.alloc) = false /\
  blocks (hashtable_add (H := lp64) heap_src table_a "b" 100 2).2 = blocks heap_src /\
  blocks (hashtable_release heap_src (Some table_a)).2 = blocks heap_src.
Proof.
  split; [reflexivity |].
  destruct (borrowed_values_untouched (H := lp64) heap_src table_a "b" 100 2) as [_ Hb].
  apply Hb. reflexivity.
Defined.

Lemma value_copied_or_aliased_witness :
  table_wf (H := lp64) table_copying /\
  payload heap_src 100 = Some [Some 1; Some 2] /\
  hashtable_add (H := lp64) heap_src table_copying "a" 100 2 = (0, table_copied, heap_copied) /\
  payload (store heap_copied 100 [Some 9; Some 9]) (hashtable_lookup (H := lp64) table_copied "a").1
  = Some [Some 1; Some 2].
Proof.
  assert (Hadd : hashtable_add (H := lp64) heap_src table_copying "a" 100 2
                 = (0, table_copied, heap_copied)) by reflexivity.
  split; [exact table_copying_wf |]. split; [reflexivity |]. split; [exact Hadd |].
  apply (value_copied_or_aliased (H := lp64) heap_src table_copying "a" 100 2
           [Some 1; Some 2] [Some 9; Some 9] table_copied heap_copied);
    [exact table_copying_wf | unfold NULL; lia | lia | reflexivity
    | vm_compute; discriminate | exact Hadd].
Defined.


Lemma calls_succeed_when_granted_witness :
  (Denied ∉ fates heap_created) /\
  (hashtable_add (H := lp64) heap_created table_created "a" 7 0).1.1 = 0.
Proof.
  assert (Hm : Denied ∉ fates heap_created) by apply not_elem_of_nil.
  split; [exact Hm |].
  destruct (calls_succeed_when_granted (H := lp64) heap_created Hm) as (_ & Hadd & _).
  apply Hadd.
Defined.

Lemma hashtable_compute_hash_divisor_witness :
  0 < table_64.(ht.size) /\
  (table_64.(ht.size) | ULONG_MOD (H := lp64)) /\
  hashtable_compute_hash (H := lp64) table_64 "key1" = 63.
Proof.
  assert (Hdiv : (table_64.(ht.size) | ULONG_MOD (H := lp64)))
    by (exists (2 ^ 58); reflexivity).
  split; [simpl; lia |]. split; [exact Hdiv |].
  apply (hashtable_compute_hash_divisor (H := lp64) table_64 "key1"); [simpl; lia | exact Hdiv].
Defined.

Lemma main_prints_witness :
  exists m',
    main (H := lp64) 1001 1002 1003 heap_literals
    = Some (0, [printed_line "key2" "element2"; printed_line "key3" "element3";
                printed_line "key1" "element1"], m').
Proof.
  apply (main_prints (H := lp64) 1001 1002 1003 "element1" "element2" "element3"
           heap_literals);
    [vm_compute; reflexivity | vm_compute; reflexivity
    | exists (2 ^ 58); reflexivity | apply not_elem_of_nil
    | unfold NULL; lia | unfold NULL; lia | unfold NULL; lia
    | vm_compute; reflexivity | vm_compute; reflexivity | vm_compute; reflexivity].
Defined.

Lemma hashtable_get_count_after_add_witness :
  table_wf (H := lp64) table_a /\
  (hashtable_get_count table_a).1 = to_size (H := lp64) (entries table_a) /\
  (hashtable_get_count (hashtable_add (H := lp64) heap_a table_a "b" 8 0).1.2).1 = 2 /\
  (hashtable_get_count (hashtable_add (H := lp64) heap_a table_a "a" 8 0).1.2).1 = 1.
Proof.
  assert (Hwf : table_wf (H := lp64) table_a) by (apply reachable_wf, table_a_reachable).
  assert (Hcount : (hashtable_get_count table_a).1 = to_size (H := lp64) (entries table_a))
    by reflexivity.
  split; [exact Hwf |]. split; [exact Hcount |].
  split.
  - apply (hashtable_get_count_after_add (H := lp64) heap_a table_a "b" 8 0 Hwf Hcount).
  - apply (hashtable_get_count_after_add (H := lp64) heap_a table_a "a" 8 0 Hwf Hcount).
Defined.
